(** * Adler-64+64 checksum and checksummed copy (src/adler32memcpy.{h,cc})

    A shallow embedding of [AdlerChecksum], [CalculateAdlerChecksum],
    [AdlerMemcpyC] and its two wrappers, over a word-addressed memory.
    Memory faults (a load or store outside the mapped cells, an index past
    the end of a [std::array]) are results of their own, so that "no access
    out of bounds" is a statement about the model. *)

From Stdlib Require Import ZArith Lia Ascii String.
From stdpp Require Import base numbers list gmap strings.
Local Open Scope Z_scope.

(** ** Machine integers

    [unsigned int] is 32 bits wide and [uint64] 64 bits wide; both wrap. *)

Definition u32 (x : Z) : Z := x mod 2 ^ 32.
Definition u64 (x : Z) : Z := x mod 2 ^ 64.

(** ** Outcomes, memory and the access log *)

Inductive result (A : Type) : Type :=
  | Val (x : A)      (* normal completion *)
  | Fault            (* access outside an object: undefined behaviour *)
  | OutOfFuel.       (* the model's loop bound was too small *)
Arguments Val {A} x.
Arguments Fault {A}.
Arguments OutOfFuel {A}.

(** One memory access through a [uint64*]: the address is counted in
    64-bit words. *)
Inductive access : Type :=
  | Rd (p : Z)
  | Wr (p : Z).

(** [mem] maps the address of every allocated 64-bit word to its value;
    [log] is ghost state, the accesses performed so far, oldest first. *)
Record state : Type := State { mem : gmap Z Z; log : list access }.

Definition M (A : Type) : Type := state → result (A * state).

Definition ret {A} (x : A) : M A := λ s, Val (x, s).

Definition bind {A B} (c : M A) (k : A → M B) : M B :=
  λ s, match c s with
       | Val (x, s') => k x s'
       | Fault => Fault
       | OutOfFuel => OutOfFuel
       end.

Definition fault {A} : M A := λ _, Fault.
Definition out_of_fuel {A} : M A := λ _, OutOfFuel.

Notation "'do' x <- c ; k" := (bind c (λ x, k))
  (at level 10, x name, c at level 100, k at level 200).
Notation "'do_' c ; k" := (bind c (λ _, k))
  (at level 10, c at level 100, k at level 200).

(** [p[0]] read through a [uint64*]. *)
Definition load (p : Z) : M Z :=
  λ s, match mem s !! p with
       | Some v => Val (v, State (mem s) (log s ++ [Rd p]))
       | None => Fault
       end.

(** [__builtin_nontemporal_store(v, p)]: an ordinary store as far as the
    contents of memory go. *)
Definition nontemporal_store (v : Z) (p : Z) : M unit :=
  λ s, match mem s !! p with
       | Some _ => Val (tt, State (<[p := v]> (mem s)) (log s ++ [Wr p]))
       | None => Fault
       end.

(** [arr[j]] on a [std::array]: past the end is undefined. *)
Definition index (arr : list Z) (j : Z) : M Z :=
  if j <? 0 then fault
  else match arr !! Z.to_nat j with
       | Some v => ret v
       | None => fault
       end.

(** ** AdlerChecksum (adler32memcpy.h) *)

(** [std::array<uint64, 2>]. *)
Definition array2 : Type := (Z * Z)%type.

Definition at2 (x : array2) (i : Z) : result Z :=
  if i =? 0 then Val (fst x)
  else if i =? 1 then Val (snd x)
  else Fault.

Record AdlerChecksum : Type := Adler { a : array2; b : array2 }.

(** The default member initialisers [a {1, 1}], [b {0, 0}]: the value of
    [AdlerChecksum ret{}]. *)
Definition AdlerChecksum_init : AdlerChecksum := Adler (1, 1) (0, 0).

Definition a0 (c : AdlerChecksum) : Z := fst (a c).
Definition a1 (c : AdlerChecksum) : Z := snd (a c).
Definition b0 (c : AdlerChecksum) : Z := fst (b c).
Definition b1 (c : AdlerChecksum) : Z := snd (b c).

(** [operator==]. *)
Definition AdlerChecksum_eqb (c other : AdlerChecksum) : bool :=
  bool_decide (a c = a other) && bool_decide (b c = b other).

(** Modelled from the spec: the member function [AdlerChecksum::increment]
    is called by adler32memcpy.cc but neither declared in adler32memcpy.h
    nor defined in adler32memcpy.cc.  Section 4.1 of the specification gives
    its eight steps, on 64-bit lanes. *)
Definition increment (c : AdlerChecksum) (d0 d1 d2 d3 : Z) : AdlerChecksum :=
  let a0 := u64 (fst (a c) + d0) in
  let b0 := u64 (fst (b c) + a0) in
  let a0 := u64 (a0 + d1) in
  let b0 := u64 (b0 + a0) in
  let a1 := u64 (snd (a c) + d2) in
  let b1 := u64 (snd (b c) + a1) in
  let a1 := u64 (a1 + d3) in
  let b1 := u64 (b1 + a1) in
  Adler (a0, a1) (b0, b1).

(** Modelled from the spec: the helper template [extractData<N>] is used by
    [AdlerMemcpyC] but defined outside adler32memcpy.{h,cc}.  Section 4.3,
    step (1): it reads [N] consecutive words starting at [p]. *)
Fixpoint extractData (n : nat) (p : Z) : M (list Z) :=
  match n with
  | O => ret []
  | S n' => do v <- load p; do r <- extractData n' (p + 1); ret (v :: r)
  end.

(** ** ToHexString *)

Definition hex_digit (n : Z) : ascii :=
  match n with
  | 0 => "0" | 1 => "1" | 2 => "2" | 3 => "3" | 4 => "4" | 5 => "5"
  | 6 => "6" | 7 => "7" | 8 => "8" | 9 => "9" | 10 => "a" | 11 => "b"
  | 12 => "c" | 13 => "d" | 14 => "e" | _ => "f"
  end%char.

(** The [k] low hexadecimal digits of [v], most significant first. *)
Fixpoint hex_low (k : nat) (v : Z) (rest : string) : string :=
  match k with
  | O => rest
  | S k' => hex_low k' (Z.shiftr v 4) (String (hex_digit (Z.land v 15)) rest)
  end.

(** The conversion [%016llx] applied to a 64-bit value: at least 16 digits,
    zero padded, and a 64-bit value has no more than 16. *)
Definition fmt_016llx (v : Z) : string := hex_low 16 (u64 v) "".

(** The format string: the conversions separated by single spaces. *)
Fixpoint fmt_fields (vs : list Z) : string :=
  match vs with
  | [] => ""
  | [v] => fmt_016llx v
  | v :: vs' => fmt_016llx v +:+ " " +:+ fmt_fields vs'
  end.

(** [snprintf(buffer, size, ...)] keeps at most [size - 1] characters. *)
Fixpoint truncate (n : nat) (s : string) : string :=
  match n, s with
  | S n', String c s' => String c (truncate n' s')
  | _, _ => ""
  end.

Definition snprintf (size : nat) (vs : list Z) : string :=
  truncate (Nat.pred size) (fmt_fields vs).

Definition rbind {A B} (r : result A) (k : A → result B) : result B :=
  match r with
  | Val x => k x
  | Fault => Fault
  | OutOfFuel => OutOfFuel
  end.

(** adler32memcpy.cc, lines 67-71.  The eight arguments are evaluated
    before the call to [snprintf]. *)
Definition ToHexString (c : AdlerChecksum) : result string :=
  rbind (at2 (a c) 0) (λ x0,
  rbind (at2 (a c) 1) (λ x1,
  rbind (at2 (a c) 2) (λ x2,
  rbind (at2 (a c) 3) (λ x3,
  rbind (at2 (b c) 0) (λ y0,
  rbind (at2 (b c) 1) (λ y1,
  rbind (at2 (b c) 2) (λ y2,
  rbind (at2 (b c) 3) (λ y3,
  Val (snprintf 128 [x0; x1; x2; x3; y0; y1; y2; y3]))))))))).

(** ** CalculateAdlerChecksum (adler32memcpy.cc, lines 74-94) *)

(** The [for] loop at lines 87-90; [fuel] bounds the number of times the
    loop condition is evaluated. *)
Fixpoint CalculateAdlerChecksum_loop (fuel : nat) (data64 count i : Z)
    (r : AdlerChecksum) : M AdlerChecksum :=
  match fuel with
  | O => out_of_fuel
  | S fuel' =>
      if i <? count then
        do d0 <- load (data64 + i);
        do d1 <- load (data64 + u32 (i + 1));
        do d2 <- load (data64 + u32 (i + 2));
        do d3 <- load (data64 + u32 (i + 3));
        CalculateAdlerChecksum_loop fuel' data64 count (u32 (i + 4))
          (increment r d0 d1 d2 d3)
      else ret r
  end.

(** The function returns its [bool] together with the value the object
    [*checksum] has afterwards; the argument [checksum] is the value it had
    before the call. *)
Definition CalculateAdlerChecksum (data64 : Z) (size_in_bytes : Z)
    (checksum : AdlerChecksum) : M (bool * AdlerChecksum) :=
  let count := size_in_bytes / 8 in
  if count >? Z.shiftl 1 19 then ret (false, checksum)
  else
    do r <- CalculateAdlerChecksum_loop (S (Z.to_nat count)) data64 count 0
              AdlerChecksum_init;
    ret (true, r).

(** ** AdlerMemcpyC (adler32memcpy.cc, lines 97-119) *)

(** The inner loop at lines 113-115, [n] iterations left. *)
Fixpoint store_loop (n : nat) (buffer : list Z) (dstmem64 i j : Z) : M unit :=
  match n with
  | O => ret tt
  | S n' =>
      do v <- index buffer j;
      do_ nontemporal_store v (dstmem64 + i + j);
      store_loop n' buffer dstmem64 i (j + 1)
  end.

(** The outer loop at lines 108-116. *)
Fixpoint AdlerMemcpyC_loop (fuel : nat) (dstmem64 srcmem64 count i : Z)
    (r : AdlerChecksum) : M AdlerChecksum :=
  match fuel with
  | O => out_of_fuel
  | S fuel' =>
      if i <? count then
        do buffer <- extractData 8 (srcmem64 + i);
        do x0 <- index buffer 0; do x1 <- index buffer 1;
        do x2 <- index buffer 2; do x3 <- index buffer 3;
        let r := increment r x0 x1 x2 x3 in
        do x4 <- index buffer 4; do x5 <- index buffer 5;
        do x6 <- index buffer 6; do x7 <- index buffer 7;
        let r := increment r x4 x5 x6 x7 in
        do_ store_loop 8 buffer dstmem64 i 0;
        AdlerMemcpyC_loop fuel' dstmem64 srcmem64 count (u32 (i + 8)) r
      else ret r
  end.

Definition AdlerMemcpyC (dstmem64 srcmem64 : Z) (size_in_bytes : Z)
    (checksum : AdlerChecksum) : M (bool * AdlerChecksum) :=
  let count := size_in_bytes / 8 in
  if count >? Z.shiftl 1 19 then ret (false, checksum)
  else
    do r <- AdlerMemcpyC_loop (S (Z.to_nat count)) dstmem64 srcmem64 count 0
              AdlerChecksum_init;
    ret (true, r).

(** Lines 123-126 and 129-132. *)
Definition AdlerMemcpyWarmC (dstmem64 srcmem64 : Z) (size_in_bytes : Z)
    (checksum : AdlerChecksum) : M (bool * AdlerChecksum) :=
  AdlerMemcpyC dstmem64 srcmem64 size_in_bytes checksum.

Definition AdlerMemcpyAsm (dstmem64 srcmem64 : Z) (size_in_bytes : Z)
    (checksum : AdlerChecksum) : M (bool * AdlerChecksum) :=
  AdlerMemcpyC dstmem64 srcmem64 size_in_bytes checksum.

(** ** Buffers *)

(** The words [ws] stored from address [p] on. *)
Fixpoint write_list (p : Z) (ws : list Z) (m : gmap Z Z) : gmap Z Z :=
  match ws with
  | [] => m
  | w :: ws' => write_list (p + 1) ws' (<[p := w]> m)
  end.

(** Memory [m] holds the words [ws] from address [p] on. *)
Definition holds (m : gmap Z Z) (p : Z) (ws : list Z) : Prop :=
  ∀ (k : nat) (w : Z), ws !! k = Some w → m !! (p + Z.of_nat k) = Some w.

(** The [n] words from address [p] on are allocated. *)
Definition allocated (m : gmap Z Z) (p n : Z) : Prop :=
  ∀ k, 0 ≤ k < n → is_Some (m !! (p + k)).

(** Two buffers of [n] words that share no word. *)
Definition non_overlapping (p q n : Z) : Prop := p + n ≤ q ∨ q + n ≤ p.

(** Byte [j] of the buffer at [p] (x86-64 is little endian). *)
Definition byte_at (m : gmap Z Z) (p j : Z) : option Z :=
  match m !! (p + j / 8) with
  | Some w => Some (Z.land (Z.shiftr w (8 * (j mod 8))) 255)
  | None => None
  end.

(** The accesses of [n] consecutive loads, or stores, from address [p] on. *)
Fixpoint rd_log (p : Z) (n : nat) : list access :=
  match n with
  | O => []
  | S n' => Rd p :: rd_log (p + 1) n'
  end.

Fixpoint wr_log (p : Z) (n : nat) : list access :=
  match n with
  | O => []
  | S n' => Wr p :: wr_log (p + 1) n'
  end.

(** An access of a copy of [n] words from [src] to [dst] that stays inside
    the buffers: a load within the source, a store within the destination. *)
Definition within (src dst n : Z) (e : access) : Prop :=
  match e with
  | Rd p => src ≤ p < src + n
  | Wr p => dst ≤ p < dst + n
  end.

(** An access of a checksum over [n] words at [src]: a load within them. *)
Definition read_within (src n : Z) (e : access) : Prop :=
  match e with
  | Rd p => src ≤ p < src + n
  | Wr _ => False
  end.

#[global] Instance non_overlapping_dec p q n : Decision (non_overlapping p q n).
Proof. unfold non_overlapping. apply _. Defined.

#[global] Instance within_dec src dst n e : Decision (within src dst n e).
Proof. destruct e; simpl; apply _. Defined.

#[global] Instance read_within_dec src n e : Decision (read_within src n e).
Proof. destruct e; simpl; apply _. Defined.

(** The checksum of a sequence of words: consecutive groups of four, folded
    front to back from the state [c]. *)
Fixpoint adler_words (ws : list Z) (c : AdlerChecksum) : AdlerChecksum :=
  match ws with
  | d0 :: d1 :: d2 :: d3 :: ws' => adler_words ws' (increment c d0 d1 d2 d3)
  | _ => c
  end.

(** A computation that never uses up the loop bound of the model. *)
Definition terminates {A} (c : M A) : Prop := ∀ s, c s ≠ OutOfFuel.

(** ** The steps of one increment

    The eight additions of section 4.1, one lane at a time. *)
Inductive lane_step : Type :=
  | Add_a0 (d : Z)   (* a0 += d  *)
  | Add_b0           (* b0 += a0 *)
  | Add_a1 (d : Z)   (* a1 += d  *)
  | Add_b1.          (* b1 += a1 *)

Definition run_step (c : AdlerChecksum) (st : lane_step) : AdlerChecksum :=
  match st with
  | Add_a0 d => Adler (u64 (a0 c + d), a1 c) (b c)
  | Add_b0 => Adler (a c) (u64 (b0 c + a0 c), b1 c)
  | Add_a1 d => Adler (a0 c, u64 (a1 c + d)) (b c)
  | Add_b1 => Adler (a c) (b0 c, u64 (b1 c + a1 c))
  end.

Definition increment_steps (d0 d1 d2 d3 : Z) : list lane_step :=
  [Add_a0 d0; Add_b0; Add_a0 d1; Add_b0; Add_a1 d2; Add_b1; Add_a1 d3; Add_b1].

(** No lane of [c'] is below the same lane of [c]. *)
Definition lanes_le (c c' : AdlerChecksum) : bool :=
  (a0 c <=? a0 c') && (a1 c <=? a1 c') && (b0 c <=? b0 c') && (b1 c <=? b1 c').

(** ** Sample memories *)

(** A source of [2^19] words at address 0 and a destination of [2^19] words
    right behind it. *)
Definition threshold_state : state :=
  State (write_list 0 (replicate (Z.to_nat (2 ^ 19)) 0)
           (write_list (2 ^ 19) (replicate (Z.to_nat (2 ^ 19)) 0) ∅)) [].

(** Eight source words at address 0 and eight destination words at 100. *)
Definition sample_state : state :=
  State (write_list 0 [2; 3; 4; 5; 6; 7; 8; 9]
           (write_list 100 (replicate 8 0) ∅)) [].

(** One group whose first word is the largest 64-bit value. *)
Definition wrapping_state : state :=
  State (write_list 0 [2 ^ 64 - 1; 0; 0; 0] ∅) [].

(** ** Further notions used by the properties *)

(** [operator!=] (adler32memcpy.h, lines 29-32). *)
Definition AdlerChecksum_neqb (c other : AdlerChecksum) : bool :=
  negb (bool_decide (a c = a other)) || negb (bool_decide (b c = b other)).

(** The accesses of [groups] iterations of the copy loop: each iteration
    loads eight words and then stores eight words. *)
Fixpoint copy_log (dst src : Z) (groups : nat) : list access :=
  match groups with
  | O => []
  | S g => rd_log src 8 ++ wr_log dst 8 ++ copy_log (dst + 8) (src + 8) g
  end.

(** The addresses loaded, and the addresses stored, in the order of the
    accesses. *)
Definition loads (lg : list access) : list Z :=
  omap (λ e, match e with Rd p => Some p | Wr _ => None end) lg.

Definition stores (lg : list access) : list Z :=
  omap (λ e, match e with Rd _ => None | Wr p => Some p end) lg.

(** [n] rounded up to a multiple of [k]. *)
Definition round_up (n k : Z) : Z := k * ((n + k - 1) / k).

(** Every cell of [s'] either is as in [s], or lies in [[lo, hi)] and was
    allocated in [s]; no cell appears or disappears. *)
Definition changes_within (lo hi : Z) (s s' : state) : Prop :=
  ∀ q, mem s' !! q = mem s !! q
       ∨ (lo ≤ q < hi ∧ is_Some (mem s !! q) ∧ is_Some (mem s' !! q)).

(** Partial correctness: whenever [c] completes, the states before and
    after are related by [R]. *)
Definition keeps {A} (R : state → state → Prop) (c : M A) : Prop :=
  ∀ s x s', c s = Val (x, s') → R s s'.

(** What a checksum over the [n] words at [src] may do to the state: memory
    stays as it is, and every access is a load within these words. *)
Definition read_only (src n : Z) (s s' : state) : Prop :=
  mem s' = mem s
  ∧ ∃ lg, log s' = log s ++ lg ∧ Forall (read_within src n) lg.

(** What a copy of [n] words from [src] to [dst] may do to the state: only
    words of the destination change, and every access is a load within the
    source or a store within the destination. *)
Definition copy_footprint (src dst n : Z) (s s' : state) : Prop :=
  changes_within dst (dst + n) s s'
  ∧ ∃ lg, log s' = log s ++ lg ∧ Forall (within src dst n) lg.

(** Five words at address 0 and nothing behind them. *)
Definition short_state : state :=
  State (write_list 0 [2; 3; 4; 5; 6] ∅) [].

(** Twelve source words at address 0, nothing behind them, and twelve
    destination words at 100. *)
Definition short_copy_state : state :=
  State (write_list 0 (replicate 12 1) (write_list 100 (replicate 12 0) ∅)) [].

(** * Properties *)

(** Division and remainder by a constant, for [lia]. *)
Ltac Zify.zify_post_hook ::= Z.to_euclidean_division_equations.

(** ** The monad and the memory primitives *)

Lemma u32_small x : 0 ≤ x < 2 ^ 32 → u32 x = x.
Proof. intros Hx. unfold u32. apply Z.mod_small. lia. Qed.

Lemma bind_Val {A B} (c : M A) (k : A → M B) s x s' :
  c s = Val (x, s') → bind c k s = k x s'.
Proof. unfold bind. by intros ->. Qed.

Lemma load_Val p v s :
  mem s !! p = Some v → load p s = Val (v, State (mem s) (log s ++ [Rd p])).
Proof. unfold load. by intros ->. Qed.

Lemma store_Val v p s :
  is_Some (mem s !! p) →
  nontemporal_store v p s
  = Val (tt, State (<[p := v]> (mem s)) (log s ++ [Wr p])).
Proof. unfold nontemporal_store. by intros [w ->]. Qed.

Lemma index_Val (arr : list Z) (j : nat) v s :
  arr !! j = Some v → index arr (Z.of_nat j) s = Val (v, s).
Proof.
  intros Hj. unfold index.
  destruct (Z.ltb_spec (Z.of_nat j) 0) as [Hneg | _]; [lia |].
  by rewrite Nat2Z.id, Hj.
Qed.

(** ** Buffers *)

Lemma holds_nil m p : holds m p [].
Proof. intros k w Hk. by rewrite lookup_nil in Hk. Qed.

Lemma holds_cons m p w ws :
  holds m p (w :: ws) ↔ m !! p = Some w ∧ holds m (p + 1) ws.
Proof.
  split.
  - intros H. split.
    + specialize (H 0%nat w eq_refl). by rewrite Z.add_0_r in H.
    + intros k v Hk. specialize (H (S k) v Hk).
      by replace (p + 1 + Z.of_nat k) with (p + Z.of_nat (S k)) by lia.
  - intros [H0 H] [|k] v Hk; simpl in Hk.
    + injection Hk as <-. by rewrite Z.add_0_r.
    + specialize (H k v Hk).
      by replace (p + Z.of_nat (S k)) with (p + 1 + Z.of_nat k) by lia.
Qed.

Lemma holds_app m p ws1 ws2 :
  holds m p (ws1 ++ ws2)
  ↔ holds m p ws1 ∧ holds m (p + Z.of_nat (length ws1)) ws2.
Proof.
  revert p. induction ws1 as [|w ws1 IH]; intros p; simpl.
  - rewrite Z.add_0_r. split; [intros H; split; [apply holds_nil | done] | by intros [_ H]].
  - rewrite !holds_cons, IH.
    replace (p + 1 + Z.of_nat (length ws1)) with (p + Z.pos (Pos.of_succ_nat (length ws1))) by lia.
    tauto.
Qed.

Lemma holds_allocated m p ws :
  holds m p ws → allocated m p (Z.of_nat (length ws)).
Proof.
  intros H k Hk.
  destruct (lookup_lt_is_Some_2 ws (Z.to_nat k)) as [w Hw]; [lia |].
  exists w. specialize (H _ _ Hw). by rewrite Z2Nat.id in H by lia.
Qed.

Lemma allocated_holds m p (n : nat) :
  allocated m p (Z.of_nat n) → ∃ ws, length ws = n ∧ holds m p ws.
Proof.
  revert p. induction n as [|n IH]; intros p Hal.
  - exists []. split; [done | apply holds_nil].
  - destruct (Hal 0) as [w Hw]; [lia |]. rewrite Z.add_0_r in Hw.
    destruct (IH (p + 1)) as (ws & Hlen & Hws).
    { intros k Hk. replace (p + 1 + k) with (p + (k + 1)) by lia.
      apply Hal. lia. }
    exists (w :: ws). split; [simpl; by rewrite Hlen | by apply holds_cons].
Qed.

Lemma lookup_write_list_ne m p ws q :
  q < p ∨ p + Z.of_nat (length ws) ≤ q → write_list p ws m !! q = m !! q.
Proof.
  revert p m. induction ws as [|w ws IH]; intros p m Hq; simpl; [done |].
  simpl in Hq. rewrite IH by lia. apply lookup_insert_ne. lia.
Qed.

Lemma holds_write_list m p ws : holds (write_list p ws m) p ws.
Proof.
  revert p m. induction ws as [|w ws IH]; intros p m; simpl.
  - apply holds_nil.
  - apply holds_cons. split; [| apply IH].
    rewrite lookup_write_list_ne by lia. apply lookup_insert_eq.
Qed.

Lemma write_list_is_Some m p ws q :
  is_Some (m !! q) → is_Some (write_list p ws m !! q).
Proof.
  revert p m. induction ws as [|w ws IH]; intros p m Hq; simpl; [done |].
  apply IH. rewrite lookup_insert. case_decide; [by eexists | done].
Qed.

Lemma allocated_write_list m p ws q n :
  allocated m q n → allocated (write_list p ws m) q n.
Proof. intros H k Hk. apply write_list_is_Some, H, Hk. Qed.

Lemma write_list_app m p ws1 ws2 :
  write_list p (ws1 ++ ws2) m
  = write_list (p + Z.of_nat (length ws1)) ws2 (write_list p ws1 m).
Proof.
  revert p m. induction ws1 as [|w ws1 IH]; intros p m; simpl.
  - by rewrite Z.add_0_r.
  - rewrite IH. f_equal. lia.
Qed.

Lemma holds_write_list_ne m p ws q vs :
  q + Z.of_nat (length vs) ≤ p ∨ p + Z.of_nat (length ws) ≤ q →
  holds m q vs → holds (write_list p ws m) q vs.
Proof.
  intros Hd H k v Hk. rewrite lookup_write_list_ne; [by apply H |].
  apply lookup_lt_Some in Hk. lia.
Qed.

(** ** The access log *)

Lemma rd_log_within src dst n p k :
  src ≤ p → p + Z.of_nat k ≤ src + n → Forall (within src dst n) (rd_log p k).
Proof.
  revert p. induction k as [|k IH]; intros p Hlo Hhi; simpl; constructor.
  - simpl. lia.
  - apply IH; lia.
Qed.

Lemma wr_log_within src dst n p k :
  dst ≤ p → p + Z.of_nat k ≤ dst + n → Forall (within src dst n) (wr_log p k).
Proof.
  revert p. induction k as [|k IH]; intros p Hlo Hhi; simpl; constructor.
  - simpl. lia.
  - apply IH; lia.
Qed.

(** ** The helpers of the copy loop *)

Lemma extractData_spec ws p s :
  holds (mem s) p ws →
  extractData (length ws) p s
  = Val (ws, State (mem s) (log s ++ rd_log p (length ws))).
Proof.
  revert p s. induction ws as [|w ws IH]; intros p s H; simpl.
  - unfold ret. rewrite app_nil_r. by destruct s.
  - apply holds_cons in H as [Hw H].
    rewrite (bind_Val _ _ _ _ _ (load_Val _ _ _ Hw)).
    rewrite (bind_Val _ _ _ _ _ (IH (p + 1) (State _ _) H)).
    unfold ret. simpl. by rewrite <- app_assoc.
Qed.

Lemma store_loop_spec dst i ws pre j s :
  j = Z.of_nat (length pre) →
  allocated (mem s) (dst + i + j) (Z.of_nat (length ws)) →
  store_loop (length ws) (pre ++ ws) dst i j s
  = Val (tt, State (write_list (dst + i + j) ws (mem s))
                   (log s ++ wr_log (dst + i + j) (length ws))).
Proof.
  revert pre j s. induction ws as [|w ws IH]; intros pre j s Hj Hal; simpl.
  - unfold ret. rewrite app_nil_r. by destruct s.
  - assert (Hix : index (pre ++ w :: ws) j s = Val (w, s)).
    { subst j. apply index_Val. by rewrite list_lookup_middle. }
    rewrite (bind_Val _ _ _ _ _ Hix).
    assert (Hst : is_Some (mem s !! (dst + i + j))).
    { specialize (Hal 0). rewrite Z.add_0_r in Hal. apply Hal.
      simpl length. lia. }
    rewrite (bind_Val _ _ _ _ _ (store_Val w _ _ Hst)).
    replace (pre ++ w :: ws) with ((pre ++ [w]) ++ ws)
      by (by rewrite <- app_assoc).
    rewrite (IH (pre ++ [w]) (j + 1) (State _ _)); simpl.
    + replace (dst + i + (j + 1)) with (dst + i + j + 1) by lia.
      by rewrite <- app_assoc.
    + rewrite length_app. simpl. lia.
    + intros k Hk. rewrite lookup_insert. case_decide; [by eexists |].
      replace (dst + i + (j + 1) + k) with (dst + i + j + (k + 1)) by lia.
      apply Hal. simpl length. lia.
Qed.

(** One iteration of the copy loop at lines 110-115, from a memory that
    holds the eight words at [src + i] and has the eight words at [dst + i]
    allocated. *)
Lemma copy_iteration dst src i r s x0 x1 x2 x3 x4 x5 x6 x7 {A}
    (k : AdlerChecksum → M A) :
  holds (mem s) (src + i) [x0; x1; x2; x3; x4; x5; x6; x7] →
  allocated (mem s) (dst + i) 8 →
  (do buffer <- extractData 8 (src + i);
   do y0 <- index buffer 0; do y1 <- index buffer 1;
   do y2 <- index buffer 2; do y3 <- index buffer 3;
   do y4 <- index buffer 4; do y5 <- index buffer 5;
   do y6 <- index buffer 6; do y7 <- index buffer 7;
   do_ store_loop 8 buffer dst i 0;
   k (increment (increment r y0 y1 y2 y3) y4 y5 y6 y7)) s
  = k (increment (increment r x0 x1 x2 x3) x4 x5 x6 x7)
      (State (write_list (dst + i) [x0; x1; x2; x3; x4; x5; x6; x7] (mem s))
             (log s ++ rd_log (src + i) 8 ++ wr_log (dst + i) 8)).
Proof.
  set (xs := [x0; x1; x2; x3; x4; x5; x6; x7]). intros Hsrc Hdst.
  rewrite (bind_Val _ _ _ _ _ (extractData_spec xs _ _ Hsrc)).
  set (s1 := State (mem s) (log s ++ rd_log (src + i) (length xs))).
  rewrite (bind_Val (index xs 0) _ s1 x0 s1 eq_refl).
  rewrite (bind_Val (index xs 1) _ s1 x1 s1 eq_refl).
  rewrite (bind_Val (index xs 2) _ s1 x2 s1 eq_refl).
  rewrite (bind_Val (index xs 3) _ s1 x3 s1 eq_refl).
  rewrite (bind_Val (index xs 4) _ s1 x4 s1 eq_refl).
  rewrite (bind_Val (index xs 5) _ s1 x5 s1 eq_refl).
  rewrite (bind_Val (index xs 6) _ s1 x6 s1 eq_refl).
  rewrite (bind_Val (index xs 7) _ s1 x7 s1 eq_refl).
  assert (Hal : allocated (mem s1) (dst + i + 0) (Z.of_nat (length xs))).
  { by rewrite Z.add_0_r. }
  rewrite (bind_Val (store_loop 8 xs dst i 0) _ s1 _ _
             (store_loop_spec dst i xs [] 0 s1 eq_refl Hal)).
  rewrite Z.add_0_r. subst s1. cbn [mem log]. by rewrite <- app_assoc.
Qed.

(** ** The loop of CalculateAdlerChecksum *)

Section checksum_loop.
Variables data64 count : Z.
Hypothesis count_le : count ≤ 2 ^ 19.

(** From index [i] on, over a memory that holds the remaining words [ws]
    (a whole number of groups), the loop folds [ws] into the state, only
    loads, and loads only from the [count] words at [data64]. *)
Lemma CalculateAdlerChecksum_loop_spec fuel : ∀ ws i r s,
  0 ≤ i →
  i + Z.of_nat (length ws) = count →
  Z.of_nat (length ws) mod 4 = 0 →
  holds (mem s) (data64 + i) ws →
  Z.of_nat (length ws) < 4 * Z.of_nat fuel →
  ∃ lg,
    CalculateAdlerChecksum_loop fuel data64 count i r s
    = Val (adler_words ws r, State (mem s) (log s ++ lg))
    ∧ Forall (read_within data64 count) lg.
Proof.
  induction fuel as [|fuel IH]; intros ws i r s Hi Hlen Hmod Hws Hfuel;
    [lia |].
  cbn [CalculateAdlerChecksum_loop].
  destruct ws as [|d0 [|d1 [|d2 [|d3 ws]]]];
    cbn [length] in *; try (exfalso; lia).
  - destruct (Z.ltb_spec i count) as [Hlt | _]; [lia |].
    exists []. split; [| constructor].
    unfold ret. rewrite app_nil_r. by destruct s.
  - destruct (Z.ltb_spec i count) as [_ | Hge]; [| lia].
    rewrite !u32_small by lia.
    pose proof (Hws 0%nat d0 eq_refl) as H0.
    pose proof (Hws 1%nat d1 eq_refl) as H1.
    pose proof (Hws 2%nat d2 eq_refl) as H2.
    pose proof (Hws 3%nat d3 eq_refl) as H3.
    replace (data64 + i + Z.of_nat 0) with (data64 + i) in H0 by lia.
    replace (data64 + i + Z.of_nat 1) with (data64 + (i + 1)) in H1 by lia.
    replace (data64 + i + Z.of_nat 2) with (data64 + (i + 2)) in H2 by lia.
    replace (data64 + i + Z.of_nat 3) with (data64 + (i + 3)) in H3 by lia.
    rewrite (bind_Val _ _ _ _ _ (load_Val _ _ s H0)).
    rewrite (bind_Val _ _ _ _ _ (load_Val _ _ (State _ _) H1)).
    rewrite (bind_Val _ _ _ _ _ (load_Val _ _ (State _ _) H2)).
    rewrite (bind_Val _ _ _ _ _ (load_Val _ _ (State _ _) H3)).
    cbn [mem log].
    destruct (IH ws (i + 4) (increment r d0 d1 d2 d3)
                (State (mem s)
                   ((((log s ++ [Rd (data64 + i)])
                      ++ [Rd (data64 + (i + 1))])
                      ++ [Rd (data64 + (i + 2))])
                      ++ [Rd (data64 + (i + 3))])))
      as (lg & Hrun & Hlg); try lia.
    { intros k w Hk. specialize (Hws (4 + k)%nat w Hk). cbn [mem].
      by replace (data64 + (i + 4) + Z.of_nat k) with (data64 + i + Z.of_nat (4 + k))
        by lia. }
    exists ([Rd (data64 + i); Rd (data64 + (i + 1)); Rd (data64 + (i + 2));
             Rd (data64 + (i + 3))] ++ lg).
    split.
    + rewrite Hrun. cbn [mem log adler_words]. by rewrite <- !app_assoc.
    + apply Forall_app. split; [| done].
      repeat constructor; simpl; lia.
Qed.
End checksum_loop.

(** ** The loop of AdlerMemcpyC *)

Section copy_loop.
Variables dstmem64 srcmem64 count : Z.
Hypothesis count_le : count ≤ 2 ^ 19.

(** Whatever the two buffers share, the loop runs to its end without a
    fault, every access stays inside the buffers and no cell of the
    memory is lost. *)
Lemma AdlerMemcpyC_loop_safe fuel : ∀ i r s,
  0 ≤ i ≤ count →
  (count - i) mod 8 = 0 →
  allocated (mem s) srcmem64 count →
  allocated (mem s) dstmem64 count →
  count - i < 8 * Z.of_nat fuel →
  ∃ r' m' lg,
    AdlerMemcpyC_loop fuel dstmem64 srcmem64 count i r s
    = Val (r', State m' (log s ++ lg))
    ∧ Forall (within srcmem64 dstmem64 count) lg
    ∧ ∀ q, is_Some (mem s !! q) → is_Some (m' !! q).
Proof.
  induction fuel as [|fuel IH]; intros i r s Hi Hmod Hsrc Hdst Hfuel;
    [lia |].
  cbn [AdlerMemcpyC_loop].
  destruct (Z.ltb_spec i count) as [Hlt | Hge].
  - destruct (allocated_holds (mem s) (srcmem64 + i) 8) as (xs & Hlen & Hxs).
    { intros k Hk. replace (srcmem64 + i + k) with (srcmem64 + (i + k))
        by lia. apply Hsrc. lia. }
    destruct xs as [|x0 [|x1 [|x2 [|x3 [|x4 [|x5 [|x6 [|x7 [|]]]]]]]]];
      try discriminate Hlen.
    rewrite (copy_iteration dstmem64 srcmem64 i r s x0 x1 x2 x3 x4 x5 x6 x7
               (AdlerMemcpyC_loop fuel dstmem64 srcmem64 count (u32 (i + 8)))
               Hxs).
    2:{ intros k Hk. replace (dstmem64 + i + k) with (dstmem64 + (i + k))
          by lia. apply Hdst. lia. }
    rewrite u32_small by lia.
    edestruct (IH (i + 8)) as (r' & m' & lg & Hrun & Hlg & Hdom);
      [| | | | | rewrite Hrun]; try lia.
    { by apply allocated_write_list. }
    { by apply allocated_write_list. }
    cbn [mem log].
    exists r', m', (rd_log (srcmem64 + i) 8 ++ wr_log (dstmem64 + i) 8 ++ lg).
    split; [by rewrite <- !app_assoc |]. split.
    + repeat (apply Forall_app; split); [| | done].
      * apply rd_log_within; lia.
      * apply wr_log_within; lia.
    + intros q Hq. by apply Hdom, write_list_is_Some.
  - exists r, (mem s), []. split; [| split; [constructor | done]].
    unfold ret. rewrite app_nil_r. by destruct s.
Qed.

Hypothesis buffers_disjoint : non_overlapping srcmem64 dstmem64 count.

(** When the buffers share no word, the loop folds the remaining source
    words [ws] into the state and leaves them stored in the destination. *)
Lemma AdlerMemcpyC_loop_spec fuel : ∀ ws i r s,
  0 ≤ i →
  i + Z.of_nat (length ws) = count →
  Z.of_nat (length ws) mod 8 = 0 →
  holds (mem s) (srcmem64 + i) ws →
  allocated (mem s) (dstmem64 + i) (Z.of_nat (length ws)) →
  Z.of_nat (length ws) < 8 * Z.of_nat fuel →
  ∃ lg,
    AdlerMemcpyC_loop fuel dstmem64 srcmem64 count i r s
    = Val (adler_words ws r,
           State (write_list (dstmem64 + i) ws (mem s)) (log s ++ lg)).
Proof.
  induction fuel as [|fuel IH]; intros ws i r s Hi Hlen Hmod Hws Hdst Hfuel;
    [lia |].
  cbn [AdlerMemcpyC_loop].
  destruct ws as [|x0 [|x1 [|x2 [|x3 [|x4 [|x5 [|x6 [|x7 ws]]]]]]]];
    cbn [length] in *; try (exfalso; lia).
  - destruct (Z.ltb_spec i count) as [Hlt | _]; [lia |].
    exists []. unfold ret. rewrite app_nil_r. by destruct s.
  - destruct (Z.ltb_spec i count) as [_ | Hge]; [| lia].
    change (x0 :: x1 :: x2 :: x3 :: x4 :: x5 :: x6 :: x7 :: ws)
      with ([x0; x1; x2; x3; x4; x5; x6; x7] ++ ws) in Hws |- *.
    apply holds_app in Hws as [Hxs Hrest].
    rewrite (copy_iteration dstmem64 srcmem64 i r s x0 x1 x2 x3 x4 x5 x6 x7
               (AdlerMemcpyC_loop fuel dstmem64 srcmem64 count (u32 (i + 8)))
               Hxs).
    2:{ intros k Hk. apply Hdst. lia. }
    rewrite u32_small by lia.
    edestruct (IH ws (i + 8)) as (lg & Hrun);
      [| | | | | | rewrite Hrun]; try lia.
    { cbn [mem]. apply holds_write_list_ne.
      - unfold non_overlapping in buffers_disjoint. cbn [length]. lia.
      - by replace (srcmem64 + (i + 8))
          with (srcmem64 + i
                + Z.of_nat (length [x0; x1; x2; x3; x4; x5; x6; x7]))
          by (cbn [length]; lia). }
    { cbn [mem]. apply allocated_write_list. intros k Hk.
      replace (dstmem64 + (i + 8) + k) with (dstmem64 + i + (8 + k)) by lia.
      apply Hdst. lia. }
    cbn [mem log].
    exists (rd_log (srcmem64 + i) 8 ++ wr_log (dstmem64 + i) 8 ++ lg).
    rewrite write_list_app. cbn [length adler_words app].
    replace (dstmem64 + i + Z.of_nat 8) with (dstmem64 + (i + 8)) by lia.
    by rewrite <- !app_assoc.
Qed.
End copy_loop.

(** ** The two functions *)

Lemma size_check_spec count :
  (count >? Z.shiftl 1 19) = bool_decide (2 ^ 19 < count).
Proof.
  change (Z.shiftl 1 19) with (2 ^ 19). rewrite Z.gtb_ltb.
  destruct (Z.ltb_spec (2 ^ 19) count).
  - by rewrite bool_decide_eq_true_2.
  - rewrite bool_decide_eq_false_2; [done | lia].
Qed.

(** Above the threshold both functions return [false] at once. *)
Lemma CalculateAdlerChecksum_too_large data64 size_in_bytes checksum s :
  2 ^ 19 < size_in_bytes / 8 →
  CalculateAdlerChecksum data64 size_in_bytes checksum s
  = Val ((false, checksum), s).
Proof.
  intros Hbig. unfold CalculateAdlerChecksum.
  by rewrite size_check_spec, bool_decide_eq_true_2.
Qed.

Lemma AdlerMemcpyC_too_large dstmem64 srcmem64 size_in_bytes checksum s :
  2 ^ 19 < size_in_bytes / 8 →
  AdlerMemcpyC dstmem64 srcmem64 size_in_bytes checksum s
  = Val ((false, checksum), s).
Proof.
  intros Hbig. unfold AdlerMemcpyC.
  by rewrite size_check_spec, bool_decide_eq_true_2.
Qed.

(** Up to the threshold, over a whole number of groups of four words. *)
Lemma CalculateAdlerChecksum_accepts data64 size_in_bytes checksum s ws :
  0 ≤ size_in_bytes →
  size_in_bytes / 8 ≤ 2 ^ 19 →
  (size_in_bytes / 8) mod 4 = 0 →
  Z.of_nat (length ws) = size_in_bytes / 8 →
  holds (mem s) data64 ws →
  ∃ lg,
    CalculateAdlerChecksum data64 size_in_bytes checksum s
    = Val ((true, adler_words ws AdlerChecksum_init),
           State (mem s) (log s ++ lg))
    ∧ Forall (read_within data64 (size_in_bytes / 8)) lg.
Proof.
  intros Hsize Hle Hmod Hlen Hws. unfold CalculateAdlerChecksum.
  rewrite size_check_spec, bool_decide_eq_false_2 by lia.
  destruct (CalculateAdlerChecksum_loop_spec data64 (size_in_bytes / 8) Hle
              (S (Z.to_nat (size_in_bytes / 8))) ws 0 AdlerChecksum_init s)
    as (lg & Hrun & Hlg); try lia.
  { by rewrite Z.add_0_r. }
  exists lg. split; [| done].
  by rewrite (bind_Val _ _ _ _ _ Hrun).
Qed.

(** Up to the threshold, over a whole number of groups of eight words and
    buffers that share no word. *)
Lemma AdlerMemcpyC_accepts dstmem64 srcmem64 size_in_bytes checksum s ws :
  0 ≤ size_in_bytes →
  size_in_bytes / 8 ≤ 2 ^ 19 →
  (size_in_bytes / 8) mod 8 = 0 →
  Z.of_nat (length ws) = size_in_bytes / 8 →
  holds (mem s) srcmem64 ws →
  allocated (mem s) dstmem64 (size_in_bytes / 8) →
  non_overlapping srcmem64 dstmem64 (size_in_bytes / 8) →
  ∃ lg,
    AdlerMemcpyC dstmem64 srcmem64 size_in_bytes checksum s
    = Val ((true, adler_words ws AdlerChecksum_init),
           State (write_list dstmem64 ws (mem s)) (log s ++ lg)).
Proof.
  intros Hsize Hle Hmod Hlen Hws Hdst Hdisj. unfold AdlerMemcpyC.
  rewrite size_check_spec, bool_decide_eq_false_2 by lia.
  destruct (AdlerMemcpyC_loop_spec dstmem64 srcmem64 (size_in_bytes / 8) Hle
              Hdisj (S (Z.to_nat (size_in_bytes / 8))) ws 0
              AdlerChecksum_init s)
    as (lg & Hrun); try lia.
  { by rewrite Z.add_0_r. }
  { rewrite Z.add_0_r. by rewrite Hlen. }
  exists lg. rewrite (bind_Val _ _ _ _ _ Hrun). by rewrite Z.add_0_r.
Qed.

(** Up to the threshold, over a whole number of groups of eight words,
    whatever the buffers share. *)
Lemma AdlerMemcpyC_safe dstmem64 srcmem64 size_in_bytes checksum s :
  0 ≤ size_in_bytes →
  size_in_bytes / 8 ≤ 2 ^ 19 →
  (size_in_bytes / 8) mod 8 = 0 →
  allocated (mem s) srcmem64 (size_in_bytes / 8) →
  allocated (mem s) dstmem64 (size_in_bytes / 8) →
  ∃ r m' lg,
    AdlerMemcpyC dstmem64 srcmem64 size_in_bytes checksum s
    = Val ((true, r), State m' (log s ++ lg))
    ∧ Forall (within srcmem64 dstmem64 (size_in_bytes / 8)) lg.
Proof.
  intros Hsize Hle Hmod Hsrc Hdst. unfold AdlerMemcpyC.
  rewrite size_check_spec, bool_decide_eq_false_2 by lia.
  destruct (AdlerMemcpyC_loop_safe dstmem64 srcmem64 (size_in_bytes / 8) Hle
              (S (Z.to_nat (size_in_bytes / 8))) 0 AdlerChecksum_init s)
    as (r & m' & lg & Hrun & Hlg & _); try done; try lia.
  exists r, m', lg. split; [| done].
  by rewrite (bind_Val _ _ _ _ _ Hrun).
Qed.

(** The words of an allocated buffer. *)
Lemma allocated_words m p n :
  0 ≤ n → allocated m p n → ∃ ws, Z.of_nat (length ws) = n ∧ holds m p ws.
Proof.
  intros Hn Hal.
  destruct (allocated_holds m p (Z.to_nat n)) as (ws & Hlen & Hws).
  - by rewrite Z2Nat.id.
  - exists ws. split; [lia | done].
Qed.

(** ** The loop bounds of the model are sufficient

    [CalculateAdlerChecksum] and [AdlerMemcpyC] give their loops
    [count + 1] evaluations of the loop condition; no call uses them up. *)

Lemma terminates_ret {A} (x : A) : terminates (ret x).
Proof. by intros s. Qed.

Lemma terminates_bind {A B} (c : M A) (k : A → M B) :
  terminates c → (∀ x, terminates (k x)) → terminates (bind c k).
Proof.
  intros Hc Hk s. unfold bind. specialize (Hc s).
  destruct (c s) as [[x s'] | |]; [apply Hk | done | done].
Qed.

Lemma terminates_load p : terminates (load p).
Proof. intros s. unfold load. by destruct (mem s !! p). Qed.

Lemma terminates_store v p : terminates (nontemporal_store v p).
Proof. intros s. unfold nontemporal_store. by destruct (mem s !! p). Qed.

Lemma terminates_index arr j : terminates (index arr j).
Proof.
  intros s. unfold index. destruct (j <? 0); [done |].
  by destruct (arr !! Z.to_nat j).
Qed.

Lemma terminates_extractData n p : terminates (extractData n p).
Proof.
  revert p. induction n as [|n IH]; intros p; simpl.
  - apply terminates_ret.
  - apply terminates_bind; [apply terminates_load | intros v].
    apply terminates_bind; [apply IH | intros r]. apply terminates_ret.
Qed.

Lemma terminates_store_loop n buffer dst i j :
  terminates (store_loop n buffer dst i j).
Proof.
  revert j. induction n as [|n IH]; intros j; simpl.
  - apply terminates_ret.
  - apply terminates_bind; [apply terminates_index | intros v].
    apply terminates_bind; [apply terminates_store | intros _]. apply IH.
Qed.

Create HintDb term.
#[local] Hint Resolve terminates_ret terminates_load terminates_store
  terminates_index terminates_extractData terminates_store_loop : term.

Lemma terminates_CalculateAdlerChecksum_loop data64 count fuel : ∀ i r,
  count ≤ 2 ^ 19 → 0 ≤ i →
  (0 < fuel)%nat → count - i ≤ 4 * (Z.of_nat fuel - 1) →
  terminates (CalculateAdlerChecksum_loop fuel data64 count i r).
Proof.
  induction fuel as [|fuel IH]; intros i r Hle Hi Hpos Hfuel; [lia |].
  cbn [CalculateAdlerChecksum_loop].
  destruct (Z.ltb_spec i count) as [Hlt | Hge]; [| apply terminates_ret].
  repeat (apply terminates_bind; [auto with term | intros ?]).
  rewrite u32_small by lia. apply IH; lia.
Qed.

Lemma terminates_AdlerMemcpyC_loop dst src count fuel : ∀ i r,
  count ≤ 2 ^ 19 → 0 ≤ i →
  (0 < fuel)%nat → count - i ≤ 8 * (Z.of_nat fuel - 1) →
  terminates (AdlerMemcpyC_loop fuel dst src count i r).
Proof.
  induction fuel as [|fuel IH]; intros i r Hle Hi Hpos Hfuel; [lia |].
  cbn [AdlerMemcpyC_loop].
  destruct (Z.ltb_spec i count) as [Hlt | Hge]; [| apply terminates_ret].
  repeat (apply terminates_bind; [auto with term | intros ?]).
  rewrite u32_small by lia. apply IH; lia.
Qed.

Lemma terminates_CalculateAdlerChecksum data64 size_in_bytes checksum :
  terminates (CalculateAdlerChecksum data64 size_in_bytes checksum).
Proof.
  unfold CalculateAdlerChecksum. rewrite size_check_spec. case_bool_decide.
  - apply terminates_ret.
  - apply terminates_bind; [| intros r; apply terminates_ret].
    apply terminates_CalculateAdlerChecksum_loop; lia.
Qed.

Lemma terminates_AdlerMemcpyC dstmem64 srcmem64 size_in_bytes checksum :
  terminates (AdlerMemcpyC dstmem64 srcmem64 size_in_bytes checksum).
Proof.
  unfold AdlerMemcpyC. rewrite size_check_spec. case_bool_decide.
  - apply terminates_ret.
  - apply terminates_bind; [| intros r; apply terminates_ret].
    apply terminates_AdlerMemcpyC_loop; lia.
Qed.

(** ** The sample memories *)

Lemma threshold_size : 2 ^ 22 / 8 = 2 ^ 19.
Proof. reflexivity. Qed.

Lemma threshold_words : Z.of_nat (length (replicate (Z.to_nat (2 ^ 19)) 0)) = 2 ^ 19.
Proof. rewrite length_replicate. apply Z2Nat.id. lia. Qed.

Lemma threshold_state_src :
  holds (mem threshold_state) 0 (replicate (Z.to_nat (2 ^ 19)) 0).
Proof. apply holds_write_list. Qed.

Lemma threshold_state_dst : allocated (mem threshold_state) (2 ^ 19) (2 ^ 19).
Proof.
  apply allocated_write_list. intros k Hk.
  apply (holds_allocated _ _ (replicate (Z.to_nat (2 ^ 19)) 0)).
  - apply holds_write_list.
  - by rewrite threshold_words.
Qed.

Lemma sample_state_src : allocated (mem sample_state) 0 8.
Proof.
  apply (holds_allocated _ _ [2; 3; 4; 5; 6; 7; 8; 9]), holds_write_list.
Qed.

Lemma sample_state_dst : allocated (mem sample_state) 100 8.
Proof.
  apply allocated_write_list.
  apply (holds_allocated _ _ (replicate 8 0)), holds_write_list.
Qed.

(** ** The format of ToHexString *)

(** The format string has eight conversions, which is more than the 128
    byte buffer takes: [snprintf] cuts the text after 127 characters, in the
    middle of the eighth field.  Four fields would have taken 67. *)
Lemma snprintf_eight_fields x0 x1 x2 x3 y0 y1 y2 y3 :
  String.length (snprintf 128 [x0; x1; x2; x3; y0; y1; y2; y3]) = 127%nat.
Proof. reflexivity. Qed.

Lemma snprintf_four_fields x0 x1 y0 y1 :
  String.length (snprintf 128 [x0; x1; y0; y1]) = 67%nat.
Proof. reflexivity. Qed.

Example snprintf_init :
  snprintf 128 [1; 1; 0; 0]
  = "0000000000000001 0000000000000001 0000000000000000 0000000000000000"%string.
Proof. reflexivity. Qed.

(** * The behaviour of the interface *)

(** C1. [increment] performs, in this order, a0 += d0, b0 += a0, a0 += d1,
    b0 += a0, a1 += d2, b1 += a1, a1 += d3, b1 += a1, each modulo 2^64; a
    fresh state has a0 = a1 = 1 and b0 = b1 = 0; and over a buffer that
    holds the one group 2, 3, 4, 5 (32 bytes) [CalculateAdlerChecksum]
    returns [true] with a0 = 6, a1 = 10, b0 = 9, b1 = 15. *)
Theorem increment_order_and_scenario :
  (∀ c d0 d1 d2 d3,
     increment c d0 d1 d2 d3 = foldl run_step c (increment_steps d0 d1 d2 d3))
  ∧ (a0 AdlerChecksum_init = 1 ∧ a1 AdlerChecksum_init = 1
     ∧ b0 AdlerChecksum_init = 0 ∧ b1 AdlerChecksum_init = 0)
  ∧ (∀ data64 checksum s,
       holds (mem s) data64 [2; 3; 4; 5] →
       ∃ c s',
         CalculateAdlerChecksum data64 32 checksum s = Val ((true, c), s')
         ∧ a0 c = 6 ∧ a1 c = 10 ∧ b0 c = 9 ∧ b1 c = 15).
Proof.
  split; [| split].
  - by intros [[x0 x1] [y0 y1]] d0 d1 d2 d3.
  - done.
  - intros data64 checksum s Hws.
    destruct (CalculateAdlerChecksum_accepts data64 32 checksum s
                [2; 3; 4; 5]) as (lg & Hrun & _); try done.
    eexists _, _. split; [exact Hrun |]. by vm_compute.
Qed.

Lemma increment_order_and_scenario_witness :
  holds (mem (State (write_list 7 [2; 3; 4; 5] ∅) [])) 7 [2; 3; 4; 5]
  ∧ ∃ c s',
      CalculateAdlerChecksum 7 32 (Adler (0, 0) (0, 0))
        (State (write_list 7 [2; 3; 4; 5] ∅) [])
      = Val ((true, c), s')
      ∧ a0 c = 6 ∧ a1 c = 10 ∧ b0 c = 9 ∧ b1 c = 15.
Proof.
  split.
  - apply holds_write_list.
  - destruct increment_order_and_scenario as (_ & _ & Hrun).
    apply Hrun, holds_write_list.
Defined.

(** C2. For a source of a valid size (a word count that is a multiple of 8
    and passes the size check), [CalculateAdlerChecksum] over the source and
    [AdlerMemcpyC] of the source into a destination buffer both return
    [true] and the same checksum. *)
Theorem checksum_equivalence dstmem64 srcmem64 size_in_bytes out1 out2 s :
  0 ≤ size_in_bytes < 2 ^ 32 →
  (size_in_bytes / 8) mod 8 = 0 →
  size_in_bytes / 8 ≤ 2 ^ 19 →
  allocated (mem s) srcmem64 (size_in_bytes / 8) →
  allocated (mem s) dstmem64 (size_in_bytes / 8) →
  non_overlapping srcmem64 dstmem64 (size_in_bytes / 8) →
  ∃ c s1 s2,
    CalculateAdlerChecksum srcmem64 size_in_bytes out1 s = Val ((true, c), s1)
    ∧ AdlerMemcpyC dstmem64 srcmem64 size_in_bytes out2 s
      = Val ((true, c), s2).
Proof.
  intros Hsize Hmod Hle Hsrc Hdst Hdisj.
  destruct (allocated_words (mem s) srcmem64 (size_in_bytes / 8))
    as (ws & Hlen & Hws); [lia | done |].
  destruct (CalculateAdlerChecksum_accepts srcmem64 size_in_bytes out1 s ws)
    as (lg1 & Hrun1 & _); try done; try lia.
  destruct (AdlerMemcpyC_accepts dstmem64 srcmem64 size_in_bytes out2 s ws)
    as (lg2 & Hrun2); try done; try lia.
  by eexists _, _, _.
Qed.

Lemma checksum_equivalence_witness :
  ∃ c s1 s2,
    CalculateAdlerChecksum 0 64 AdlerChecksum_init sample_state
    = Val ((true, c), s1)
    ∧ AdlerMemcpyC 100 0 64 AdlerChecksum_init sample_state
      = Val ((true, c), s2).
Proof.
  apply (checksum_equivalence 100 0 64).
  - lia.
  - reflexivity.
  - vm_compute. discriminate.
  - exact sample_state_src.
  - exact sample_state_dst.
  - left. vm_compute. discriminate.
Defined.

(** C3. For a valid request (a word count that is a multiple of 8 and
    passes the size check, buffers that do not overlap) [AdlerMemcpyC]
    returns [true], and afterwards every byte of the destination buffer
    equals the byte of the source buffer at the same offset as it was at
    the call. *)
Theorem copy_fidelity dstmem64 srcmem64 size_in_bytes checksum s :
  0 ≤ size_in_bytes < 2 ^ 32 →
  (size_in_bytes / 8) mod 8 = 0 →
  size_in_bytes / 8 ≤ 2 ^ 19 →
  allocated (mem s) srcmem64 (size_in_bytes / 8) →
  allocated (mem s) dstmem64 (size_in_bytes / 8) →
  non_overlapping srcmem64 dstmem64 (size_in_bytes / 8) →
  ∃ c s',
    AdlerMemcpyC dstmem64 srcmem64 size_in_bytes checksum s
    = Val ((true, c), s')
    ∧ ∀ j, 0 ≤ j < 8 * (size_in_bytes / 8) →
        is_Some (byte_at (mem s) srcmem64 j)
        ∧ byte_at (mem s') dstmem64 j = byte_at (mem s) srcmem64 j.
Proof.
  intros Hsize Hmod Hle Hsrc Hdst Hdisj.
  destruct (allocated_words (mem s) srcmem64 (size_in_bytes / 8))
    as (ws & Hlen & Hws); [lia | done |].
  destruct (AdlerMemcpyC_accepts dstmem64 srcmem64 size_in_bytes checksum s
              ws) as (lg & Hrun); try done; try lia.
  eexists _, _. split; [exact Hrun |].
  intros j Hj. cbn [mem]. unfold byte_at.
  destruct (lookup_lt_is_Some_2 ws (Z.to_nat (j / 8))) as [w Hw]; [lia |].
  pose proof (Hws _ _ Hw) as Hs.
  pose proof (holds_write_list (mem s) dstmem64 ws _ _ Hw) as Hd.
  rewrite Z2Nat.id in Hs, Hd by lia.
  rewrite Hs, Hd. split; [by eexists | done].
Qed.

Lemma copy_fidelity_witness :
  ∃ c s',
    AdlerMemcpyC 100 0 64 AdlerChecksum_init sample_state = Val ((true, c), s')
    ∧ ∀ j, 0 ≤ j < 8 * (64 / 8) →
        is_Some (byte_at (mem sample_state) 0 j)
        ∧ byte_at (mem s') 100 j = byte_at (mem sample_state) 0 j.
Proof.
  apply (copy_fidelity 100 0 64).
  - lia.
  - reflexivity.
  - vm_compute. discriminate.
  - exact sample_state_src.
  - exact sample_state_dst.
  - left. vm_compute. discriminate.
Defined.

(** C4. A request of exactly 2^19 words (4194304 bytes) is not rejected:
    over buffers of 2^19 words both [CalculateAdlerChecksum] and
    [AdlerMemcpyC] return [true]. *)
Theorem threshold_request_accepted :
  2 ^ 22 / 8 = 2 ^ 19
  ∧ (∃ c s',
       CalculateAdlerChecksum 0 (2 ^ 22) AdlerChecksum_init threshold_state
       = Val ((true, c), s'))
  ∧ (∃ c s',
       AdlerMemcpyC (2 ^ 19) 0 (2 ^ 22) AdlerChecksum_init threshold_state
       = Val ((true, c), s')).
Proof.
  split; [reflexivity | split].
  - destruct (CalculateAdlerChecksum_accepts 0 (2 ^ 22) AdlerChecksum_init
                threshold_state (replicate (Z.to_nat (2 ^ 19)) 0))
      as (lg & Hrun & _).
    + lia.
    + by rewrite threshold_size.
    + by rewrite threshold_size.
    + by rewrite threshold_size, threshold_words.
    + exact threshold_state_src.
    + by eexists _, _.
  - destruct (AdlerMemcpyC_accepts (2 ^ 19) 0 (2 ^ 22) AdlerChecksum_init
                threshold_state (replicate (Z.to_nat (2 ^ 19)) 0))
      as (lg & Hrun).
    + lia.
    + by rewrite threshold_size.
    + by rewrite threshold_size.
    + by rewrite threshold_size, threshold_words.
    + exact threshold_state_src.
    + rewrite threshold_size. exact threshold_state_dst.
    + rewrite threshold_size. left. lia.
    + by eexists _, _.
Qed.

(** C5. A request of exactly 2^19 words succeeds, in [CalculateAdlerChecksum]
    and in [AdlerMemcpyC]; a request of 2^19 + 1 words fails in both, and
    the failing call leaves the checksum object as it was and performs no
    access to memory at all. *)
Theorem boundary_rejection dstmem64 srcmem64 checksum s :
  (∀ size_in_bytes,
     0 ≤ size_in_bytes < 2 ^ 32 →
     size_in_bytes / 8 = 2 ^ 19 →
     allocated (mem s) srcmem64 (2 ^ 19) →
     allocated (mem s) dstmem64 (2 ^ 19) →
     (∃ c s',
        CalculateAdlerChecksum srcmem64 size_in_bytes checksum s
        = Val ((true, c), s'))
     ∧ (∃ c s',
          AdlerMemcpyC dstmem64 srcmem64 size_in_bytes checksum s
          = Val ((true, c), s')))
  ∧ (∀ size_in_bytes,
       0 ≤ size_in_bytes < 2 ^ 32 →
       size_in_bytes / 8 = 2 ^ 19 + 1 →
       CalculateAdlerChecksum srcmem64 size_in_bytes checksum s
       = Val ((false, checksum), s)
       ∧ AdlerMemcpyC dstmem64 srcmem64 size_in_bytes checksum s
         = Val ((false, checksum), s)).
Proof.
  split.
  - intros size_in_bytes Hsize Hcount Hsrc Hdst. split.
    + destruct (allocated_words (mem s) srcmem64 (2 ^ 19))
        as (ws & Hlen & Hws); [lia | done |].
      destruct (CalculateAdlerChecksum_accepts srcmem64 size_in_bytes
                  checksum s ws) as (lg & Hrun & _);
        rewrite ?Hcount; try done; try lia.
      by eexists _, _.
    + destruct (AdlerMemcpyC_safe dstmem64 srcmem64 size_in_bytes checksum s)
        as (r & m' & lg & Hrun & _);
        rewrite ?Hcount; try done; try lia.
      by eexists _, _.
  - intros size_in_bytes Hsize Hcount. split.
    + apply CalculateAdlerChecksum_too_large. lia.
    + apply AdlerMemcpyC_too_large. lia.
Qed.

Lemma boundary_rejection_witness :
  ((∃ c s',
      CalculateAdlerChecksum 0 (2 ^ 22) AdlerChecksum_init threshold_state
      = Val ((true, c), s'))
   ∧ (∃ c s',
        AdlerMemcpyC (2 ^ 19) 0 (2 ^ 22) AdlerChecksum_init threshold_state
        = Val ((true, c), s')))
  ∧ (CalculateAdlerChecksum 0 (2 ^ 22 + 8) AdlerChecksum_init threshold_state
     = Val ((false, AdlerChecksum_init), threshold_state)
     ∧ AdlerMemcpyC (2 ^ 19) 0 (2 ^ 22 + 8) AdlerChecksum_init threshold_state
       = Val ((false, AdlerChecksum_init), threshold_state)).
Proof.
  destruct (boundary_rejection (2 ^ 19) 0 AdlerChecksum_init threshold_state)
    as [Hat Habove].
  split.
  - apply Hat.
    + lia.
    + reflexivity.
    + intros k Hk.
      apply (holds_allocated _ _ (replicate (Z.to_nat (2 ^ 19)) 0)).
      * exact threshold_state_src.
      * by rewrite threshold_words.
    + exact threshold_state_dst.
  - apply Habove.
    + lia.
    + reflexivity.
Defined.

(** C6. An accepted request can make a lane wrap: over the one group
    2^64 - 1, 0, 0, 0 (32 bytes) [CalculateAdlerChecksum] returns [true],
    and lane a0, which starts at 1, ends at 0.  With every word equal to
    2^64 - 1 the first addition of the first group already takes a0 from 1
    to 0. *)
Theorem lane_wraps_on_accepted_input :
  (∃ c s',
     CalculateAdlerChecksum 0 32 AdlerChecksum_init wrapping_state
     = Val ((true, c), s')
     ∧ c = increment AdlerChecksum_init (2 ^ 64 - 1) 0 0 0
     ∧ a0 AdlerChecksum_init = 1
     ∧ a0 c = 0
     ∧ lanes_le AdlerChecksum_init c = false)
  ∧ hd Add_b0 (increment_steps (2 ^ 64 - 1) (2 ^ 64 - 1) (2 ^ 64 - 1)
                 (2 ^ 64 - 1)) = Add_a0 (2 ^ 64 - 1)
  ∧ lanes_le AdlerChecksum_init
      (run_step AdlerChecksum_init (Add_a0 (2 ^ 64 - 1))) = false.
Proof.
  destruct (CalculateAdlerChecksum_accepts 0 32 AdlerChecksum_init
              wrapping_state [2 ^ 64 - 1; 0; 0; 0]) as (lg & Hrun & _);
    try done.
  { apply holds_write_list. }
  split; [| by vm_compute].
  eexists _, _. split; [exact Hrun |]. by vm_compute.
Qed.

(** C7. [ToHexString] never returns a rendering of the four lanes: for
    every state it reads [a[2]], past the end of the two-element array. *)
Theorem ToHexString_reads_past_the_lanes (c : AdlerChecksum) :
  at2 (a c) 2 = Fault ∧ ToHexString c = Fault.
Proof. by destruct c as [[x0 x1] [y0 y1]]. Qed.

(** C8. For every input the warm variant and the accelerated variant
    return what the baseline returns: the same flag, the same checksum and
    the same final memory. *)
Theorem variant_equivalence dstmem64 srcmem64 size_in_bytes checksum s :
  AdlerMemcpyWarmC dstmem64 srcmem64 size_in_bytes checksum s
  = AdlerMemcpyC dstmem64 srcmem64 size_in_bytes checksum s
  ∧ AdlerMemcpyAsm dstmem64 srcmem64 size_in_bytes checksum s
    = AdlerMemcpyC dstmem64 srcmem64 size_in_bytes checksum s.
Proof. split; reflexivity. Qed.

(** C9. With [size_in_bytes] below 8 (no whole word) both functions return
    [true] with the freshly initialised checksum, and neither touches
    memory: [AdlerMemcpyC] writes nothing to the destination. *)
Theorem empty_request dstmem64 srcmem64 size_in_bytes checksum s :
  0 ≤ size_in_bytes < 8 →
  CalculateAdlerChecksum srcmem64 size_in_bytes checksum s
  = Val ((true, AdlerChecksum_init), s)
  ∧ AdlerMemcpyC dstmem64 srcmem64 size_in_bytes checksum s
    = Val ((true, AdlerChecksum_init), s)
  ∧ a0 AdlerChecksum_init = 1 ∧ a1 AdlerChecksum_init = 1
  ∧ b0 AdlerChecksum_init = 0 ∧ b1 AdlerChecksum_init = 0.
Proof.
  intros Hsize.
  assert (Hcount : size_in_bytes / 8 = 0) by lia.
  unfold CalculateAdlerChecksum, AdlerMemcpyC. rewrite Hcount.
  by destruct s.
Qed.

Lemma empty_request_witness :
  CalculateAdlerChecksum 0 7 (Adler (5, 6) (7, 8)) (State ∅ [])
  = Val ((true, AdlerChecksum_init), State ∅ [])
  ∧ AdlerMemcpyC 100 0 7 (Adler (5, 6) (7, 8)) (State ∅ [])
    = Val ((true, AdlerChecksum_init), State ∅ [])
  ∧ a0 AdlerChecksum_init = 1 ∧ a1 AdlerChecksum_init = 1
  ∧ b0 AdlerChecksum_init = 0 ∧ b1 AdlerChecksum_init = 0.
Proof. apply (empty_request 100 0 7). lia. Defined.

(** C10. When the word count is a multiple of 4, [CalculateAdlerChecksum]
    over a buffer of that many words completes without a fault and every
    access it makes is a load within the buffer; when the word count is a
    multiple of 8, [AdlerMemcpyC] over two buffers of that many words
    completes without a fault, every load lies within the source buffer and
    every store within the destination buffer. *)
Theorem accesses_in_bounds dstmem64 srcmem64 size_in_bytes checksum s :
  0 ≤ size_in_bytes < 2 ^ 32 →
  allocated (mem s) srcmem64 (size_in_bytes / 8) →
  ((size_in_bytes / 8) mod 4 = 0 →
   ∃ r s' lg,
     CalculateAdlerChecksum srcmem64 size_in_bytes checksum s = Val (r, s')
     ∧ log s' = log s ++ lg
     ∧ Forall (read_within srcmem64 (size_in_bytes / 8)) lg)
  ∧ ((size_in_bytes / 8) mod 8 = 0 →
     allocated (mem s) dstmem64 (size_in_bytes / 8) →
     ∃ r s' lg,
       AdlerMemcpyC dstmem64 srcmem64 size_in_bytes checksum s = Val (r, s')
       ∧ log s' = log s ++ lg
       ∧ Forall (within srcmem64 dstmem64 (size_in_bytes / 8)) lg).
Proof.
  intros Hsize Hsrc.
  destruct (Z.le_gt_cases (size_in_bytes / 8) (2 ^ 19)) as [Hle | Hbig].
  - split.
    + intros Hmod.
      destruct (allocated_words (mem s) srcmem64 (size_in_bytes / 8))
        as (ws & Hlen & Hws); [lia | done |].
      destruct (CalculateAdlerChecksum_accepts srcmem64 size_in_bytes
                  checksum s ws) as (lg & Hrun & Hlg); try done; try lia.
      by eexists _, _, lg.
    + intros Hmod Hdst.
      destruct (AdlerMemcpyC_safe dstmem64 srcmem64 size_in_bytes checksum s)
        as (r & m' & lg & Hrun & Hlg); try done; try lia.
      by eexists _, _, lg.
  - split; [intros _ | intros _ _]; eexists _, s, [].
    + rewrite CalculateAdlerChecksum_too_large by done.
      by rewrite app_nil_r.
    + rewrite AdlerMemcpyC_too_large by done.
      by rewrite app_nil_r.
Qed.

Lemma accesses_in_bounds_witness :
  (∃ r s' lg,
     CalculateAdlerChecksum 0 64 AdlerChecksum_init sample_state = Val (r, s')
     ∧ log s' = log sample_state ++ lg
     ∧ Forall (read_within 0 (64 / 8)) lg)
  ∧ (∃ r s' lg,
       AdlerMemcpyC 100 0 64 AdlerChecksum_init sample_state = Val (r, s')
       ∧ log s' = log sample_state ++ lg
       ∧ Forall (within 0 100 (64 / 8)) lg).
Proof.
  destruct (accesses_in_bounds 100 0 64 AdlerChecksum_init sample_state)
    as [Hsum Hcopy].
  - lia.
  - exact sample_state_src.
  - split.
    + apply Hsum. reflexivity.
    + apply Hcopy; [reflexivity | exact sample_state_dst].
Defined.

(** * Further properties of the code *)

(** ** Unrolling the loops *)

Lemma rd_log_app p n1 n2 :
  rd_log p (n1 + n2) = rd_log p n1 ++ rd_log (p + Z.of_nat n1) n2.
Proof.
  revert p. induction n1 as [|n1 IH]; intros p; simpl.
  - by rewrite Z.add_0_r.
  - rewrite IH. do 3 f_equal. lia.
Qed.

Lemma wr_log_app p n1 n2 :
  wr_log p (n1 + n2) = wr_log p n1 ++ wr_log (p + Z.of_nat n1) n2.
Proof.
  revert p. induction n1 as [|n1 IH]; intros p; simpl.
  - by rewrite Z.add_0_r.
  - rewrite IH. do 3 f_equal. lia.
Qed.

(** [g] iterations of the checksum loop over a memory that holds the next
    [4 * g] words. *)
Lemma CalculateAdlerChecksum_loop_unroll data64 count g : ∀ ws fuel i r s,
  count ≤ 2 ^ 19 → 0 ≤ i →
  length ws = (4 * g)%nat →
  i + Z.of_nat (length ws) < count + 4 →
  holds (mem s) (data64 + i) ws →
  CalculateAdlerChecksum_loop (g + fuel) data64 count i r s
  = CalculateAdlerChecksum_loop fuel data64 count (i + Z.of_nat (length ws))
      (adler_words ws r)
      (State (mem s) (log s ++ rd_log (data64 + i) (length ws))).
Proof.
  induction g as [|g IH]; intros ws fuel i r s Hle Hi Hlen Hend Hws.
  - destruct ws; [| discriminate Hlen]. cbn [length rd_log adler_words].
    rewrite Z.add_0_r, app_nil_r. by destruct s.
  - destruct ws as [|d0 [|d1 [|d2 [|d3 ws]]]]; cbn [length] in *; try lia.
    cbn [Nat.add CalculateAdlerChecksum_loop].
    destruct (Z.ltb_spec i count) as [_ | Hge]; [| lia].
    rewrite !u32_small by lia.
    pose proof (Hws 0%nat d0 eq_refl) as H0.
    pose proof (Hws 1%nat d1 eq_refl) as H1.
    pose proof (Hws 2%nat d2 eq_refl) as H2.
    pose proof (Hws 3%nat d3 eq_refl) as H3.
    replace (data64 + i + Z.of_nat 0) with (data64 + i) in H0 by lia.
    replace (data64 + i + Z.of_nat 1) with (data64 + (i + 1)) in H1 by lia.
    replace (data64 + i + Z.of_nat 2) with (data64 + (i + 2)) in H2 by lia.
    replace (data64 + i + Z.of_nat 3) with (data64 + (i + 3)) in H3 by lia.
    rewrite (bind_Val _ _ _ _ _ (load_Val _ _ s H0)).
    rewrite (bind_Val _ _ _ _ _ (load_Val _ _ (State _ _) H1)).
    rewrite (bind_Val _ _ _ _ _ (load_Val _ _ (State _ _) H2)).
    rewrite (bind_Val _ _ _ _ _ (load_Val _ _ (State _ _) H3)).
    cbn [mem log].
    rewrite (IH ws fuel (i + 4)); cbn [mem log]; try lia.
    2:{ intros k w Hk. specialize (Hws (4 + k)%nat w Hk).
        by replace (data64 + (i + 4) + Z.of_nat k)
          with (data64 + i + Z.of_nat (4 + k)) by lia. }
    cbn [adler_words rd_log]. rewrite <- !app_assoc. cbn [app].
    replace (i + Z.of_nat (S (S (S (S (length ws))))))
      with (i + 4 + Z.of_nat (length ws)) by lia.
    replace (data64 + i + 1 + 1 + 1 + 1) with (data64 + (i + 4)) by lia.
    replace (data64 + i + 1 + 1 + 1) with (data64 + (i + 3)) by lia.
    replace (data64 + i + 1 + 1) with (data64 + (i + 2)) by lia.
    by replace (data64 + i + 1) with (data64 + (i + 1)) by lia.
Qed.

(** [g] iterations of the copy loop over a memory that holds the next
    [8 * g] source words, has as many destination words allocated, and in
    which these two ranges share no word. *)
Lemma AdlerMemcpyC_loop_unroll dst src count g : ∀ ws fuel i r s,
  count ≤ 2 ^ 19 → 0 ≤ i →
  length ws = (8 * g)%nat →
  i + Z.of_nat (length ws) < count + 8 →
  holds (mem s) (src + i) ws →
  allocated (mem s) (dst + i) (Z.of_nat (length ws)) →
  non_overlapping (src + i) (dst + i) (Z.of_nat (length ws)) →
  AdlerMemcpyC_loop (g + fuel) dst src count i r s
  = AdlerMemcpyC_loop fuel dst src count (i + Z.of_nat (length ws))
      (adler_words ws r)
      (State (write_list (dst + i) ws (mem s))
             (log s ++ copy_log (dst + i) (src + i) g)).
Proof.
  induction g as [|g IH]; intros ws fuel i r s Hle Hi Hlen Hend Hws Hdst Hdis.
  - destruct ws; [| discriminate Hlen].
    cbn [length copy_log adler_words write_list].
    rewrite Z.add_0_r, app_nil_r. by destruct s.
  - destruct ws as [|x0 [|x1 [|x2 [|x3 [|x4 [|x5 [|x6 [|x7 ws]]]]]]]];
      cbn [length] in *; try lia.
    cbn [Nat.add AdlerMemcpyC_loop].
    destruct (Z.ltb_spec i count) as [_ | Hge]; [| lia].
    change (x0 :: x1 :: x2 :: x3 :: x4 :: x5 :: x6 :: x7 :: ws)
      with ([x0; x1; x2; x3; x4; x5; x6; x7] ++ ws) in Hws |- *.
    apply holds_app in Hws as [Hxs Hrest].
    rewrite (copy_iteration dst src i r s x0 x1 x2 x3 x4 x5 x6 x7
               (AdlerMemcpyC_loop (g + fuel) dst src count (u32 (i + 8)))
               Hxs).
    2:{ intros k Hk. apply Hdst. lia. }
    rewrite u32_small by lia. unfold non_overlapping in Hdis.
    rewrite (IH ws fuel (i + 8)); cbn [mem log]; try lia.
    + rewrite write_list_app. cbn [length adler_words app copy_log].
      rewrite <- !app_assoc.
      replace (dst + i + Z.of_nat 8) with (dst + (i + 8)) by lia.
      replace (dst + i + 8) with (dst + (i + 8)) by lia.
      replace (src + i + 8) with (src + (i + 8)) by lia.
      by replace (i + Z.of_nat (S (S (S (S (S (S (S (S (length ws))))))))))
        with (i + 8 + Z.of_nat (length ws)) by lia.
    + apply holds_write_list_ne; [cbn [length]; lia |].
      by replace (src + (i + 8))
        with (src + i + Z.of_nat (length [x0; x1; x2; x3; x4; x5; x6; x7]))
        by (cbn [length]; lia).
    + apply allocated_write_list. intros k Hk.
      replace (dst + (i + 8) + k) with (dst + i + (8 + k)) by lia.
      apply Hdst. lia.
    + unfold non_overlapping. lia.
Qed.

(** Past the last word the loops stop: one more evaluation of the loop
    condition is all they need. *)
Lemma CalculateAdlerChecksum_loop_exit fuel data64 count i r s :
  count ≤ i → CalculateAdlerChecksum_loop (S fuel) data64 count i r s = Val (r, s).
Proof.
  intros Hge. cbn [CalculateAdlerChecksum_loop].
  by destruct (Z.ltb_spec i count) as [Hlt | _]; [lia |].
Qed.

Lemma AdlerMemcpyC_loop_exit fuel dst src count i r s :
  count ≤ i → AdlerMemcpyC_loop (S fuel) dst src count i r s = Val (r, s).
Proof.
  intros Hge. cbn [AdlerMemcpyC_loop].
  by destruct (Z.ltb_spec i count) as [Hlt | _]; [lia |].
Qed.

(** ** Whole groups *)

Lemma loads_rd_log p n : loads (rd_log p n) = seqZ p (Z.of_nat n).
Proof.
  revert p. induction n as [|n IH]; intros p; [done |].
  rewrite seqZ_cons by lia. cbn. unfold loads in IH. rewrite IH.
  do 2 f_equal; lia.
Qed.

Lemma stores_rd_log p n : stores (rd_log p n) = [].
Proof. revert p. induction n as [|n IH]; intros p; [done | apply IH]. Qed.

Lemma loads_wr_log p n : loads (wr_log p n) = [].
Proof. revert p. induction n as [|n IH]; intros p; [done | apply IH]. Qed.

Lemma stores_wr_log p n : stores (wr_log p n) = seqZ p (Z.of_nat n).
Proof.
  revert p. induction n as [|n IH]; intros p; [done |].
  rewrite seqZ_cons by lia. cbn. unfold stores in IH. rewrite IH.
  do 2 f_equal; lia.
Qed.

Lemma loads_copy_log dst src g :
  loads (copy_log dst src g) = seqZ src (8 * Z.of_nat g).
Proof.
  revert dst src. induction g as [|g IH]; intros dst src; [done |].
  cbn [copy_log]. unfold loads in *. rewrite !omap_app.
  fold (loads (rd_log src 8)). fold (loads (wr_log dst 8)).
  rewrite loads_rd_log, loads_wr_log, IH. cbn [app].
  replace (8 * Z.of_nat (S g)) with (Z.of_nat 8 + 8 * Z.of_nat g) by lia.
  rewrite seqZ_app by lia. do 2 f_equal.
Qed.

Lemma stores_copy_log dst src g :
  stores (copy_log dst src g) = seqZ dst (8 * Z.of_nat g).
Proof.
  revert dst src. induction g as [|g IH]; intros dst src; [done |].
  cbn [copy_log]. unfold stores in *. rewrite !omap_app.
  fold (stores (rd_log src 8)). fold (stores (wr_log dst 8)).
  rewrite stores_rd_log, stores_wr_log, IH. cbn [app].
  replace (8 * Z.of_nat (S g)) with (Z.of_nat 8 + 8 * Z.of_nat g) by lia.
  rewrite seqZ_app by lia. do 2 f_equal.
Qed.

(** The result of an accepted [CalculateAdlerChecksum], with its accesses. *)
Lemma CalculateAdlerChecksum_run data64 size_in_bytes checksum s ws :
  0 ≤ size_in_bytes →
  size_in_bytes / 8 ≤ 2 ^ 19 →
  Z.of_nat (length ws) = round_up (size_in_bytes / 8) 4 →
  holds (mem s) data64 ws →
  CalculateAdlerChecksum data64 size_in_bytes checksum s
  = Val ((true, adler_words ws AdlerChecksum_init),
         State (mem s) (log s ++ rd_log data64 (length ws))).
Proof.
  intros Hsize Hle Hlen Hws. unfold round_up in *.
  set (count := size_in_bytes / 8) in *.
  set (g := Z.to_nat ((count + 4 - 1) / 4)).
  assert (Hg : length ws = (4 * g)%nat) by lia.
  assert (Hrun : CalculateAdlerChecksum_loop (S (Z.to_nat count)) data64 count
                   0 AdlerChecksum_init s
                 = Val (adler_words ws AdlerChecksum_init,
                        State (mem s) (log s ++ rd_log data64 (length ws)))).
  { replace (S (Z.to_nat count)) with (g + S (Z.to_nat count - g))%nat by lia.
    rewrite (CalculateAdlerChecksum_loop_unroll data64 count g ws);
      [| lia | lia | done | lia | by rewrite Z.add_0_r].
    rewrite CalculateAdlerChecksum_loop_exit by lia.
    by rewrite Z.add_0_r. }
  unfold CalculateAdlerChecksum. fold count.
  rewrite size_check_spec, bool_decide_eq_false_2 by lia.
  by rewrite (bind_Val _ _ _ _ _ Hrun).
Qed.

(** The result of an accepted [AdlerMemcpyC], with its accesses. *)
Lemma AdlerMemcpyC_run dstmem64 srcmem64 size_in_bytes checksum s ws :
  0 ≤ size_in_bytes →
  size_in_bytes / 8 ≤ 2 ^ 19 →
  Z.of_nat (length ws) = round_up (size_in_bytes / 8) 8 →
  holds (mem s) srcmem64 ws →
  allocated (mem s) dstmem64 (round_up (size_in_bytes / 8) 8) →
  non_overlapping srcmem64 dstmem64 (round_up (size_in_bytes / 8) 8) →
  AdlerMemcpyC dstmem64 srcmem64 size_in_bytes checksum s
  = Val ((true, adler_words ws AdlerChecksum_init),
         State (write_list dstmem64 ws (mem s))
               (log s ++ copy_log dstmem64 srcmem64 (length ws / 8))).
Proof.
  intros Hsize Hle Hlen Hws Hdst Hdis. unfold round_up in *.
  set (count := size_in_bytes / 8) in *.
  set (g := Z.to_nat ((count + 8 - 1) / 8)).
  assert (Hg : length ws = (8 * g)%nat) by lia.
  assert (Hg' : (length ws / 8)%nat = g).
  { rewrite Hg, Nat.mul_comm. by apply Nat.div_mul. }
  assert (Hrun : AdlerMemcpyC_loop (S (Z.to_nat count)) dstmem64 srcmem64 count
                   0 AdlerChecksum_init s
                 = Val (adler_words ws AdlerChecksum_init,
                        State (write_list dstmem64 ws (mem s))
                              (log s ++ copy_log dstmem64 srcmem64 g))).
  { replace (S (Z.to_nat count)) with (g + S (Z.to_nat count - g))%nat by lia.
    rewrite (AdlerMemcpyC_loop_unroll dstmem64 srcmem64 count g ws);
      rewrite ?Z.add_0_r; try done; try lia.
    - by rewrite AdlerMemcpyC_loop_exit by lia.
    - by rewrite Hlen.
    - by rewrite Hlen. }
  unfold AdlerMemcpyC. fold count.
  rewrite size_check_spec, bool_decide_eq_false_2 by lia.
  by rewrite (bind_Val _ _ _ _ _ Hrun), Hg'.
Qed.

Lemma copy_log_groups (ws : list Z) n :
  Z.of_nat (length ws) = round_up n 8 →
  8 * Z.of_nat (length ws / 8) = round_up n 8.
Proof.
  intros Hlen.
  assert (Hws8 : length ws = (8 * Z.to_nat ((n + 8 - 1) / 8))%nat)
    by (unfold round_up in Hlen; lia).
  rewrite <- Hlen, Hws8 at 1. rewrite Nat.mul_comm, Nat.div_mul by done.
  lia.
Qed.

(** X1. [CalculateAdlerChecksum] works in whole groups of four words: an
    accepted request of [count] words over a memory that holds [count]
    rounded up to a multiple of 4 words returns [true] with the fold of
    [increment] over these words, group after group from the fresh state;
    it leaves memory as it was, and its accesses are one load of each of
    these words, in ascending order, and no store. *)
Theorem CalculateAdlerChecksum_whole_groups data64 size_in_bytes checksum s ws :
  0 ≤ size_in_bytes →
  size_in_bytes / 8 ≤ 2 ^ 19 →
  Z.of_nat (length ws) = round_up (size_in_bytes / 8) 4 →
  holds (mem s) data64 ws →
  ∃ lg,
    CalculateAdlerChecksum data64 size_in_bytes checksum s
    = Val ((true, adler_words ws AdlerChecksum_init),
           State (mem s) (log s ++ lg))
    ∧ loads lg = seqZ data64 (round_up (size_in_bytes / 8) 4)
    ∧ stores lg = [].
Proof.
  intros Hsize Hle Hlen Hws.
  exists (rd_log data64 (length ws)). split; [| split].
  - by apply CalculateAdlerChecksum_run.
  - by rewrite loads_rd_log, Hlen.
  - apply stores_rd_log.
Qed.

Lemma CalculateAdlerChecksum_whole_groups_witness :
  ∃ lg,
    CalculateAdlerChecksum 0 40 AdlerChecksum_init sample_state
    = Val ((true, adler_words [2; 3; 4; 5; 6; 7; 8; 9] AdlerChecksum_init),
           State (mem sample_state) (log sample_state ++ lg))
    ∧ loads lg = seqZ 0 (round_up (40 / 8) 4)
    ∧ stores lg = [].
Proof.
  apply (CalculateAdlerChecksum_whole_groups 0 40).
  - lia.
  - vm_compute. discriminate.
  - reflexivity.
  - apply holds_write_list.
Defined.

(** X2. [AdlerMemcpyC] works in whole groups of eight words: an accepted
    request of [count] words, over a source that holds [count] rounded up
    to a multiple of 8 words and a destination of as many words that does
    not overlap it, returns [true] with the fold of [increment] over these
    source words and leaves exactly these words stored in the destination. *)
Theorem AdlerMemcpyC_whole_groups dstmem64 srcmem64 size_in_bytes checksum s ws :
  0 ≤ size_in_bytes →
  size_in_bytes / 8 ≤ 2 ^ 19 →
  Z.of_nat (length ws) = round_up (size_in_bytes / 8) 8 →
  holds (mem s) srcmem64 ws →
  allocated (mem s) dstmem64 (round_up (size_in_bytes / 8) 8) →
  non_overlapping srcmem64 dstmem64 (round_up (size_in_bytes / 8) 8) →
  ∃ s',
    AdlerMemcpyC dstmem64 srcmem64 size_in_bytes checksum s
    = Val ((true, adler_words ws AdlerChecksum_init), s')
    ∧ mem s' = write_list dstmem64 ws (mem s)
    ∧ holds (mem s') dstmem64 ws.
Proof.
  intros Hsize Hle Hlen Hws Hdst Hdis.
  rewrite (AdlerMemcpyC_run dstmem64 srcmem64 size_in_bytes checksum s ws)
    by done.
  eexists. split; [done |]. cbn [mem]. split; [done |].
  apply holds_write_list.
Qed.

Lemma AdlerMemcpyC_whole_groups_witness :
  ∃ s',
    AdlerMemcpyC 100 0 40 AdlerChecksum_init sample_state
    = Val ((true, adler_words [2; 3; 4; 5; 6; 7; 8; 9] AdlerChecksum_init), s')
    ∧ mem s' = write_list 100 [2; 3; 4; 5; 6; 7; 8; 9] (mem sample_state)
    ∧ holds (mem s') 100 [2; 3; 4; 5; 6; 7; 8; 9].
Proof.
  apply (AdlerMemcpyC_whole_groups 100 0 40).
  - lia.
  - vm_compute. discriminate.
  - reflexivity.
  - apply holds_write_list.
  - exact sample_state_dst.
  - left. vm_compute. discriminate.
Defined.

(** X3. The accesses of an accepted [AdlerMemcpyC]: every source word of the
    whole groups is loaded exactly once and every destination word stored
    exactly once, both in ascending order; nothing else is accessed. *)
Theorem AdlerMemcpyC_access_order dstmem64 srcmem64 size_in_bytes checksum s :
  0 ≤ size_in_bytes →
  size_in_bytes / 8 ≤ 2 ^ 19 →
  allocated (mem s) srcmem64 (round_up (size_in_bytes / 8) 8) →
  allocated (mem s) dstmem64 (round_up (size_in_bytes / 8) 8) →
  non_overlapping srcmem64 dstmem64 (round_up (size_in_bytes / 8) 8) →
  ∃ r s' lg,
    AdlerMemcpyC dstmem64 srcmem64 size_in_bytes checksum s = Val (r, s')
    ∧ log s' = log s ++ lg
    ∧ loads lg = seqZ srcmem64 (round_up (size_in_bytes / 8) 8)
    ∧ stores lg = seqZ dstmem64 (round_up (size_in_bytes / 8) 8)
    ∧ NoDup (loads lg) ∧ NoDup (stores lg).
Proof.
  intros Hsize Hle Hsrc Hdst Hdis.
  assert (Hn : 0 ≤ round_up (size_in_bytes / 8) 8) by (unfold round_up; lia).
  destruct (allocated_words _ _ _ Hn Hsrc) as (ws & Hlen & Hws).
  rewrite (AdlerMemcpyC_run dstmem64 srcmem64 size_in_bytes checksum s ws)
    by done.
  eexists _, _, _. split; [done |]. cbn [log]. split; [done |].
  rewrite loads_copy_log, stores_copy_log, (copy_log_groups ws _ Hlen).
  repeat split; auto using NoDup_seqZ.
Qed.

Lemma AdlerMemcpyC_access_order_witness :
  ∃ r s' lg,
    AdlerMemcpyC 100 0 64 AdlerChecksum_init sample_state = Val (r, s')
    ∧ log s' = log sample_state ++ lg
    ∧ loads lg = seqZ 0 (round_up (64 / 8) 8)
    ∧ stores lg = seqZ 100 (round_up (64 / 8) 8)
    ∧ NoDup (loads lg) ∧ NoDup (stores lg).
Proof.
  apply (AdlerMemcpyC_access_order 100 0 64).
  - lia.
  - vm_compute. discriminate.
  - exact sample_state_src.
  - exact sample_state_dst.
  - left. vm_compute. discriminate.
Defined.

(** ** Buffers that end inside a group *)

Lemma bind_Fault {A B} (c : M A) (k : A → M B) s :
  c s = Fault → bind c k s = Fault.
Proof. unfold bind. by intros ->. Qed.

Lemma extractData_fault n : ∀ p s (k : nat),
  (k < n)%nat → mem s !! (p + Z.of_nat k) = None → extractData n p s = Fault.
Proof.
  induction n as [|n IH]; intros p s k Hk Hnone; [lia |].
  cbn [extractData]. unfold bind at 1, load.
  destruct k as [|k].
  - rewrite Z.add_0_r in Hnone. by rewrite Hnone.
  - destruct (mem s !! p) as [v|]; [| done].
    apply bind_Fault, (IH _ _ k); [lia |]. cbn [mem].
    by replace (p + 1 + Z.of_nat k) with (p + Z.of_nat (S k)) by lia.
Qed.

(** X4. [CalculateAdlerChecksum] reads past a buffer that ends inside a group
    of four: when the accepted word count is not a multiple of 4, the
    buffer has that many words and the word behind it is not allocated, the
    call runs into a fault. *)
Theorem CalculateAdlerChecksum_short_buffer data64 size_in_bytes checksum s :
  0 ≤ size_in_bytes →
  size_in_bytes / 8 ≤ 2 ^ 19 →
  (size_in_bytes / 8) mod 4 ≠ 0 →
  allocated (mem s) data64 (size_in_bytes / 8) →
  mem s !! (data64 + size_in_bytes / 8) = None →
  CalculateAdlerChecksum data64 size_in_bytes checksum s = Fault.
Proof.
  intros Hsize Hle Hmod Hal Hnone.
  set (count := size_in_bytes / 8) in *.
  set (g := Z.to_nat (count / 4)).
  destruct (allocated_holds (mem s) data64 (4 * g)) as (ws & Hlen & Hws).
  { intros k Hk. apply Hal. lia. }
  unfold CalculateAdlerChecksum. fold count.
  rewrite size_check_spec, bool_decide_eq_false_2 by lia.
  apply bind_Fault.
  replace (S (Z.to_nat count)) with (g + S (Z.to_nat count - g))%nat by lia.
  rewrite (CalculateAdlerChecksum_loop_unroll data64 count g ws);
    [| lia | lia | done | lia | by rewrite Z.add_0_r].
  rewrite Z.add_0_l. cbn [CalculateAdlerChecksum_loop].
  destruct (Z.ltb_spec (Z.of_nat (length ws)) count) as [_ | Hge]; [| lia].
  rewrite !u32_small by lia.
  set (i := Z.of_nat (length ws)).
  assert (Hr : count = i + 1 ∨ count = i + 2 ∨ count = i + 3) by lia.
  unfold bind, load. cbn [mem log].
  destruct (mem s !! (data64 + i)) as [d0|]; [| done]. cbn [mem log].
  destruct Hr as [Hr | Hr]; [by rewrite <- Hr, Hnone |].
  destruct (mem s !! (data64 + (i + 1))) as [d1|]; [| done]. cbn [mem log].
  destruct Hr as [Hr | Hr]; [by rewrite <- Hr, Hnone |].
  destruct (mem s !! (data64 + (i + 2))) as [d2|]; [| done]. cbn [mem log].
  by rewrite <- Hr, Hnone.
Qed.

Lemma CalculateAdlerChecksum_short_buffer_witness :
  CalculateAdlerChecksum 0 40 AdlerChecksum_init short_state = Fault.
Proof.
  apply CalculateAdlerChecksum_short_buffer.
  - lia.
  - vm_compute. discriminate.
  - vm_compute. discriminate.
  - apply (holds_allocated _ _ [2; 3; 4; 5; 6]), holds_write_list.
  - reflexivity.
Defined.

(** X5. [AdlerMemcpyC] reads past a source that ends inside a group of
    eight: when the accepted word count is not a multiple of 8, the two
    buffers have that many words and do not overlap, and the word behind
    the source is not allocated, the call runs into a fault. *)
Theorem AdlerMemcpyC_short_source dstmem64 srcmem64 size_in_bytes checksum s :
  0 ≤ size_in_bytes →
  size_in_bytes / 8 ≤ 2 ^ 19 →
  (size_in_bytes / 8) mod 8 ≠ 0 →
  allocated (mem s) srcmem64 (size_in_bytes / 8) →
  allocated (mem s) dstmem64 (size_in_bytes / 8) →
  non_overlapping srcmem64 dstmem64 (size_in_bytes / 8) →
  mem s !! (srcmem64 + size_in_bytes / 8) = None →
  AdlerMemcpyC dstmem64 srcmem64 size_in_bytes checksum s = Fault.
Proof.
  intros Hsize Hle Hmod Hsrc Hdst Hdis Hnone.
  set (count := size_in_bytes / 8) in *.
  set (g := Z.to_nat (count / 8)).
  destruct (allocated_holds (mem s) srcmem64 (8 * g)) as (ws & Hlen & Hws).
  { intros k Hk. apply Hsrc. lia. }
  unfold AdlerMemcpyC. fold count.
  rewrite size_check_spec, bool_decide_eq_false_2 by lia.
  apply bind_Fault. unfold non_overlapping in Hdis.
  replace (S (Z.to_nat count)) with (g + S (Z.to_nat count - g))%nat by lia.
  rewrite (AdlerMemcpyC_loop_unroll dstmem64 srcmem64 count g ws);
    rewrite ?Z.add_0_r; try done; try lia.
  - rewrite Z.add_0_l. cbn [AdlerMemcpyC_loop].
    destruct (Z.ltb_spec (Z.of_nat (length ws)) count) as [_ | Hge]; [| lia].
    apply bind_Fault.
    apply (extractData_fault 8 _ _ (Z.to_nat (count - Z.of_nat (length ws))));
      [lia |].
    assert (Hne : srcmem64 + count ≠ dstmem64).
    { intros Heq. destruct (Hdst 0) as [w Hw]; [lia |].
      rewrite Z.add_0_r, <- Heq, Hnone in Hw. discriminate Hw. }
    cbn [mem]. rewrite lookup_write_list_ne by lia.
    by replace (srcmem64 + Z.of_nat (length ws)
                + Z.of_nat (Z.to_nat (count - Z.of_nat (length ws))))
      with (srcmem64 + count) by lia.
  - intros k Hk. apply Hdst. lia.
  - unfold non_overlapping. lia.
Qed.

Lemma AdlerMemcpyC_short_source_witness :
  AdlerMemcpyC 100 0 96 AdlerChecksum_init short_copy_state = Fault.
Proof.
  apply AdlerMemcpyC_short_source.
  - lia.
  - vm_compute. discriminate.
  - vm_compute. discriminate.
  - apply (holds_allocated _ _ (replicate 12 1)), holds_write_list.
  - apply allocated_write_list.
    apply (holds_allocated _ _ (replicate 12 0)), holds_write_list.
  - left. vm_compute. discriminate.
  - reflexivity.
Defined.

(** ** Footprints, whatever the arguments *)

Lemma keeps_ret {A} (R : state → state → Prop) (x : A) :
  (∀ s, R s s) → keeps R (ret x).
Proof. intros Hrefl s y s' [= _ <-]. apply Hrefl. Qed.

Lemma keeps_bind {A B} (R : state → state → Prop) (c : M A) (k : A → M B) :
  (∀ s1 s2 s3, R s1 s2 → R s2 s3 → R s1 s3) →
  keeps R c → (∀ x, keeps R (k x)) → keeps R (bind c k).
Proof.
  intros Htrans Hc Hk s y s'' Hrun. unfold bind in Hrun.
  destruct (c s) as [[x s'] | |] eqn:Hcs; try discriminate Hrun.
  eapply Htrans; [by eapply Hc | by eapply Hk].
Qed.

Lemma keeps_index (R : state → state → Prop) arr j :
  (∀ s, R s s) → keeps R (index arr j).
Proof.
  intros Hrefl s y s' Hrun. unfold index in Hrun.
  destruct (j <? 0); [discriminate Hrun |].
  destruct (arr !! Z.to_nat j); [| discriminate Hrun].
  injection Hrun as _ <-. apply Hrefl.
Qed.

Lemma read_only_refl src n s : read_only src n s s.
Proof. split; [done |]. exists []. by rewrite app_nil_r. Qed.

Lemma read_only_trans src n s1 s2 s3 :
  read_only src n s1 s2 → read_only src n s2 s3 → read_only src n s1 s3.
Proof.
  intros [Hm1 (lg1 & Hl1 & Hf1)] [Hm2 (lg2 & Hl2 & Hf2)].
  split; [congruence |]. exists (lg1 ++ lg2).
  split; [by rewrite Hl2, Hl1, app_assoc | by apply Forall_app].
Qed.

Lemma changes_within_refl lo hi s : changes_within lo hi s s.
Proof. intros q. by left. Qed.

Lemma changes_within_trans lo hi s1 s2 s3 :
  changes_within lo hi s1 s2 → changes_within lo hi s2 s3 →
  changes_within lo hi s1 s3.
Proof.
  intros H12 H23 q.
  destruct (H12 q) as [E12 | (Hq & Ha & Hb)],
           (H23 q) as [E23 | (Hq' & Hb' & Hc)].
  - left. congruence.
  - right. rewrite <- E12. done.
  - right. rewrite E23. done.
  - right. done.
Qed.

Lemma copy_footprint_refl src dst n s : copy_footprint src dst n s s.
Proof.
  split; [apply changes_within_refl |]. exists []. by rewrite app_nil_r.
Qed.

Lemma copy_footprint_trans src dst n s1 s2 s3 :
  copy_footprint src dst n s1 s2 → copy_footprint src dst n s2 s3 →
  copy_footprint src dst n s1 s3.
Proof.
  intros [Hm1 (lg1 & Hl1 & Hf1)] [Hm2 (lg2 & Hl2 & Hf2)].
  split; [by eapply changes_within_trans |]. exists (lg1 ++ lg2).
  split; [by rewrite Hl2, Hl1, app_assoc | by apply Forall_app].
Qed.

Lemma keeps_load_read_only src n p :
  src ≤ p < src + n → keeps (read_only src n) (load p).
Proof.
  intros Hp s v s' Hrun. unfold load in Hrun.
  destruct (mem s !! p); [| discriminate Hrun]. injection Hrun as _ <-.
  split; [done |]. exists [Rd p]. split; [done |]. constructor; [exact Hp | constructor].
Qed.

Lemma keeps_load_copy src dst n p :
  src ≤ p < src + n → keeps (copy_footprint src dst n) (load p).
Proof.
  intros Hp s v s' Hrun. unfold load in Hrun.
  destruct (mem s !! p); [| discriminate Hrun]. injection Hrun as _ <-.
  split; [intros q; by left |].
  exists [Rd p]. split; [done |]. constructor; [exact Hp | constructor].
Qed.

Lemma keeps_store_copy src dst n v p :
  dst ≤ p < dst + n → keeps (copy_footprint src dst n) (nontemporal_store v p).
Proof.
  intros Hp s u s' Hrun. unfold nontemporal_store in Hrun.
  destruct (mem s !! p) as [w|] eqn:Hw; [| discriminate Hrun].
  injection Hrun as _ <-. split.
  - intros q. cbn [mem]. destruct (decide (p = q)) as [<- | Hne].
    + right. rewrite lookup_insert_eq, Hw. by eauto.
    + left. by apply lookup_insert_ne.
  - exists [Wr p]. split; [done |]. constructor; [exact Hp | constructor].
Qed.

Lemma keeps_extractData src dst n k : ∀ p,
  src ≤ p → p + Z.of_nat k ≤ src + n →
  keeps (copy_footprint src dst n) (extractData k p).
Proof.
  induction k as [|k IH]; intros p Hlo Hhi; cbn [extractData].
  - apply keeps_ret, copy_footprint_refl.
  - apply keeps_bind; [apply copy_footprint_trans | |].
    + apply keeps_load_copy. lia.
    + intros v. apply keeps_bind; [apply copy_footprint_trans | |].
      * apply IH; lia.
      * intros r. apply keeps_ret, copy_footprint_refl.
Qed.

Lemma keeps_store_loop src dst n k buffer dstmem64 i : ∀ j,
  dst ≤ dstmem64 + i + j → dstmem64 + i + j + Z.of_nat k ≤ dst + n →
  keeps (copy_footprint src dst n) (store_loop k buffer dstmem64 i j).
Proof.
  induction k as [|k IH]; intros j Hlo Hhi; cbn [store_loop].
  - apply keeps_ret, copy_footprint_refl.
  - apply keeps_bind; [apply copy_footprint_trans | |].
    + apply keeps_index, copy_footprint_refl.
    + intros v. apply keeps_bind; [apply copy_footprint_trans | |].
      * apply keeps_store_copy. lia.
      * intros _. apply IH; lia.
Qed.

Lemma keeps_CalculateAdlerChecksum_loop data64 count fuel : ∀ i r,
  count ≤ 2 ^ 19 → 0 ≤ i → i mod 4 = 0 →
  keeps (read_only data64 (round_up count 4))
    (CalculateAdlerChecksum_loop fuel data64 count i r).
Proof.
  induction fuel as [|fuel IH]; intros i r Hle Hi Hmod;
    cbn [CalculateAdlerChecksum_loop].
  - by intros s x s' Hrun.
  - destruct (Z.ltb_spec i count) as [Hlt | Hge];
      [| apply keeps_ret, read_only_refl].
    rewrite !u32_small by lia. unfold round_up.
    repeat (apply keeps_bind;
            [apply read_only_trans | apply keeps_load_read_only; lia
            | intros ?]).
    apply IH; lia.
Qed.

Lemma keeps_AdlerMemcpyC_loop dst src count fuel : ∀ i r,
  count ≤ 2 ^ 19 → 0 ≤ i → i mod 8 = 0 →
  keeps (copy_footprint src dst (round_up count 8))
    (AdlerMemcpyC_loop fuel dst src count i r).
Proof.
  induction fuel as [|fuel IH]; intros i r Hle Hi Hmod;
    cbn [AdlerMemcpyC_loop].
  - by intros s x s' Hrun.
  - destruct (Z.ltb_spec i count) as [Hlt | Hge];
      [| apply keeps_ret, copy_footprint_refl].
    rewrite !u32_small by lia.
    apply keeps_bind; [apply copy_footprint_trans | |].
    { apply keeps_extractData; unfold round_up; lia. }
    intros buffer.
    repeat (apply keeps_bind;
            [apply copy_footprint_trans
            | apply keeps_index, copy_footprint_refl
            | intros ?]).
    apply keeps_bind; [apply copy_footprint_trans | |].
    { apply keeps_store_loop; unfold round_up; lia. }
    intros _. apply IH; lia.
Qed.

(** X6. Whatever its arguments and the memory it runs on, a
    [CalculateAdlerChecksum] that completes has left memory exactly as it
    was, has stored nothing, and has loaded only from the word count
    rounded up to a multiple of 4 words at [data64]. *)
Theorem CalculateAdlerChecksum_read_only data64 size_in_bytes checksum s r s' :
  CalculateAdlerChecksum data64 size_in_bytes checksum s = Val (r, s') →
  mem s' = mem s
  ∧ ∃ lg, log s' = log s ++ lg
          ∧ Forall (read_within data64 (round_up (size_in_bytes / 8) 4)) lg.
Proof.
  revert s r s'.
  change (keeps (read_only data64 (round_up (size_in_bytes / 8) 4))
            (CalculateAdlerChecksum data64 size_in_bytes checksum)).
  unfold CalculateAdlerChecksum. rewrite size_check_spec. case_bool_decide.
  - apply keeps_ret, read_only_refl.
  - apply keeps_bind; [apply read_only_trans | |].
    + apply keeps_CalculateAdlerChecksum_loop; [lia | done | done].
    + intros r. apply keeps_ret, read_only_refl.
Qed.

Lemma CalculateAdlerChecksum_read_only_witness :
  ∃ r s',
    CalculateAdlerChecksum 0 64 AdlerChecksum_init sample_state = Val (r, s')
    ∧ mem s' = mem sample_state
    ∧ ∃ lg, log s' = log sample_state ++ lg
            ∧ Forall (read_within 0 (round_up (64 / 8) 4)) lg.
Proof.
  destruct (CalculateAdlerChecksum_accepts 0 64 AdlerChecksum_init
              sample_state [2; 3; 4; 5; 6; 7; 8; 9]) as (lg & Hrun & _);
    [lia | vm_compute; discriminate | reflexivity | reflexivity
    | apply holds_write_list |].
  eexists _, _. split; [exact Hrun |].
  exact (CalculateAdlerChecksum_read_only _ _ _ _ _ _ Hrun).
Defined.

(** X7. Whatever its arguments and the memory it runs on (the buffers may
    be short, or overlap), an [AdlerMemcpyC] that completes has changed no
    word outside the destination of word count rounded up to a multiple of
    8 words, has allocated and freed nothing, has loaded only from the
    source of that size and stored only into the destination. *)
Theorem AdlerMemcpyC_footprint dstmem64 srcmem64 size_in_bytes checksum s r s' :
  AdlerMemcpyC dstmem64 srcmem64 size_in_bytes checksum s = Val (r, s') →
  (∀ q, q < dstmem64 ∨ dstmem64 + round_up (size_in_bytes / 8) 8 ≤ q →
        mem s' !! q = mem s !! q)
  ∧ (∀ q, is_Some (mem s' !! q) ↔ is_Some (mem s !! q))
  ∧ ∃ lg, log s' = log s ++ lg
          ∧ Forall (within srcmem64 dstmem64
                      (round_up (size_in_bytes / 8) 8)) lg.
Proof.
  intros Hrun.
  assert (Hfp : copy_footprint srcmem64 dstmem64
                  (round_up (size_in_bytes / 8) 8) s s').
  { revert s r s' Hrun.
    change (keeps (copy_footprint srcmem64 dstmem64
                     (round_up (size_in_bytes / 8) 8))
              (AdlerMemcpyC dstmem64 srcmem64 size_in_bytes checksum)).
    unfold AdlerMemcpyC. rewrite size_check_spec. case_bool_decide.
    - apply keeps_ret, copy_footprint_refl.
    - apply keeps_bind; [apply copy_footprint_trans | |].
      + apply keeps_AdlerMemcpyC_loop; [lia | done | done].
      + intros r. apply keeps_ret, copy_footprint_refl. }
  destruct Hfp as [Hmem Hlog]. split; [| split; [| done]].
  - intros q Hq. destruct (Hmem q) as [Heq | (Hin & _)]; [done | lia].
  - intros q. destruct (Hmem q) as [-> | (_ & Ha & Hb)]; [done | by split].
Qed.

Lemma AdlerMemcpyC_footprint_witness :
  ∃ r s',
    AdlerMemcpyC 100 0 64 AdlerChecksum_init sample_state = Val (r, s')
    ∧ (∀ q, q < 100 ∨ 100 + round_up (64 / 8) 8 ≤ q →
            mem s' !! q = mem sample_state !! q)
    ∧ (∀ q, is_Some (mem s' !! q) ↔ is_Some (mem sample_state !! q))
    ∧ ∃ lg, log s' = log sample_state ++ lg
            ∧ Forall (within 0 100 (round_up (64 / 8) 8)) lg.
Proof.
  destruct (AdlerMemcpyC_safe 100 0 64 AdlerChecksum_init sample_state)
    as (r & m' & lg & Hrun & _);
    [lia | vm_compute; discriminate | reflexivity | exact sample_state_src
    | exact sample_state_dst |].
  eexists _, _. split; [exact Hrun |].
  exact (AdlerMemcpyC_footprint _ _ _ _ _ _ _ Hrun).
Defined.

(** ** Calls one after the other *)

Lemma write_list_idemp p ws m :
  write_list p ws (write_list p ws m) = write_list p ws m.
Proof.
  apply map_eq. intros q.
  destruct (decide (p ≤ q < p + Z.of_nat (length ws))) as [Hin | Hout].
  - destruct (lookup_lt_is_Some_2 ws (Z.to_nat (q - p))) as [w Hw]; [lia |].
    pose proof (holds_write_list (write_list p ws m) p ws _ _ Hw) as H1.
    pose proof (holds_write_list m p ws _ _ Hw) as H2.
    replace (p + Z.of_nat (Z.to_nat (q - p))) with q in H1, H2 by lia.
    by rewrite H1, H2.
  - by rewrite lookup_write_list_ne by lia.
Qed.

Lemma adler_words_app g : ∀ ws1 ws2 c,
  length ws1 = (4 * g)%nat →
  adler_words (ws1 ++ ws2) c = adler_words ws2 (adler_words ws1 c).
Proof.
  induction g as [|g IH]; intros ws1 ws2 c Hlen.
  - by destruct ws1.
  - destruct ws1 as [|d0 [|d1 [|d2 [|d3 ws1]]]]; cbn [length] in Hlen; try lia.
    cbn [app adler_words]. apply IH. lia.
Qed.

(** X8. Checking a copy: after an accepted [AdlerMemcpyC] of a whole number
    of groups of eight words between buffers that do not overlap,
    [CalculateAdlerChecksum] over the destination returns [true] with the
    checksum the copy returned, and so does [CalculateAdlerChecksum] over
    the source, which the copy has left as it was. *)
Theorem checksum_of_the_copy dstmem64 srcmem64 size_in_bytes out1 out2 out3 s :
  0 ≤ size_in_bytes < 2 ^ 32 →
  (size_in_bytes / 8) mod 8 = 0 →
  size_in_bytes / 8 ≤ 2 ^ 19 →
  allocated (mem s) srcmem64 (size_in_bytes / 8) →
  allocated (mem s) dstmem64 (size_in_bytes / 8) →
  non_overlapping srcmem64 dstmem64 (size_in_bytes / 8) →
  ∃ c s1 s2 s3,
    AdlerMemcpyC dstmem64 srcmem64 size_in_bytes out1 s = Val ((true, c), s1)
    ∧ CalculateAdlerChecksum dstmem64 size_in_bytes out2 s1
      = Val ((true, c), s2)
    ∧ CalculateAdlerChecksum srcmem64 size_in_bytes out3 s1
      = Val ((true, c), s3).
Proof.
  intros Hsize Hmod Hle Hsrc Hdst Hdis.
  destruct (allocated_words (mem s) srcmem64 (size_in_bytes / 8))
    as (ws & Hlen & Hws); [lia | done |].
  destruct (AdlerMemcpyC_accepts dstmem64 srcmem64 size_in_bytes out1 s ws)
    as (lg & Hrun); try done; try lia.
  set (s1 := State (write_list dstmem64 ws (mem s)) (log s ++ lg)) in *.
  destruct (CalculateAdlerChecksum_accepts dstmem64 size_in_bytes out2 s1 ws)
    as (lg2 & Hrun2 & _); try done; try lia.
  { apply holds_write_list. }
  destruct (CalculateAdlerChecksum_accepts srcmem64 size_in_bytes out3 s1 ws)
    as (lg3 & Hrun3 & _); try done; try lia.
  { apply holds_write_list_ne; [| done].
    unfold non_overlapping in Hdis. lia. }
  by eexists _, _, _, _.
Qed.

Lemma checksum_of_the_copy_witness :
  ∃ c s1 s2 s3,
    AdlerMemcpyC 100 0 64 AdlerChecksum_init sample_state = Val ((true, c), s1)
    ∧ CalculateAdlerChecksum 100 64 AdlerChecksum_init s1
      = Val ((true, c), s2)
    ∧ CalculateAdlerChecksum 0 64 AdlerChecksum_init s1
      = Val ((true, c), s3).
Proof.
  apply (checksum_of_the_copy 100 0 64).
  - lia.
  - reflexivity.
  - vm_compute. discriminate.
  - exact sample_state_src.
  - exact sample_state_dst.
  - left. vm_compute. discriminate.
Defined.

(** X9. Copying again changes nothing: after an accepted [AdlerMemcpyC]
    between buffers that do not overlap, the same call on the resulting
    state returns the same checksum and leaves memory as the first call
    left it. *)
Theorem copy_twice dstmem64 srcmem64 size_in_bytes out1 out2 s :
  0 ≤ size_in_bytes < 2 ^ 32 →
  (size_in_bytes / 8) mod 8 = 0 →
  size_in_bytes / 8 ≤ 2 ^ 19 →
  allocated (mem s) srcmem64 (size_in_bytes / 8) →
  allocated (mem s) dstmem64 (size_in_bytes / 8) →
  non_overlapping srcmem64 dstmem64 (size_in_bytes / 8) →
  ∃ c s1 s2,
    AdlerMemcpyC dstmem64 srcmem64 size_in_bytes out1 s = Val ((true, c), s1)
    ∧ AdlerMemcpyC dstmem64 srcmem64 size_in_bytes out2 s1
      = Val ((true, c), s2)
    ∧ mem s2 = mem s1.
Proof.
  intros Hsize Hmod Hle Hsrc Hdst Hdis.
  destruct (allocated_words (mem s) srcmem64 (size_in_bytes / 8))
    as (ws & Hlen & Hws); [lia | done |].
  destruct (AdlerMemcpyC_accepts dstmem64 srcmem64 size_in_bytes out1 s ws)
    as (lg & Hrun); try done; try lia.
  set (s1 := State (write_list dstmem64 ws (mem s)) (log s ++ lg)) in *.
  destruct (AdlerMemcpyC_accepts dstmem64 srcmem64 size_in_bytes out2 s1 ws)
    as (lg2 & Hrun2); try done; try lia.
  { apply holds_write_list_ne; [| done].
    unfold non_overlapping in Hdis. lia. }
  { by apply allocated_write_list. }
  eexists _, _, _. split; [exact Hrun |]. split; [exact Hrun2 |].
  cbn [mem]. apply write_list_idemp.
Qed.

Lemma copy_twice_witness :
  ∃ c s1 s2,
    AdlerMemcpyC 100 0 64 AdlerChecksum_init sample_state = Val ((true, c), s1)
    ∧ AdlerMemcpyC 100 0 64 AdlerChecksum_init s1 = Val ((true, c), s2)
    ∧ mem s2 = mem s1.
Proof.
  apply (copy_twice 100 0 64).
  - lia.
  - reflexivity.
  - vm_compute. discriminate.
  - exact sample_state_src.
  - exact sample_state_dst.
  - left. vm_compute. discriminate.
Defined.

(** X10. With a word count that is 4 more than a multiple of 8, the copier
    handles one group more than the calculator: over a source followed by
    four more words [e0 .. e3], [CalculateAdlerChecksum] returns the
    checksum [c] of the source while [AdlerMemcpyC] returns
    [increment c e0 e1 e2 e3] and stores [e0 .. e3] behind the destination. *)
Theorem copier_takes_the_trailing_group dstmem64 srcmem64 size_in_bytes
    out1 out2 s ws e0 e1 e2 e3 :
  0 ≤ size_in_bytes < 2 ^ 32 →
  (size_in_bytes / 8) mod 8 = 4 →
  size_in_bytes / 8 ≤ 2 ^ 19 →
  Z.of_nat (length ws) = size_in_bytes / 8 →
  holds (mem s) srcmem64 (ws ++ [e0; e1; e2; e3]) →
  allocated (mem s) dstmem64 (size_in_bytes / 8 + 4) →
  non_overlapping srcmem64 dstmem64 (size_in_bytes / 8 + 4) →
  ∃ c s1 s2,
    CalculateAdlerChecksum srcmem64 size_in_bytes out1 s = Val ((true, c), s1)
    ∧ AdlerMemcpyC dstmem64 srcmem64 size_in_bytes out2 s
      = Val ((true, increment c e0 e1 e2 e3), s2)
    ∧ holds (mem s2) (dstmem64 + size_in_bytes / 8) [e0; e1; e2; e3].
Proof.
  intros Hsize Hmod Hle Hlen Hws Hdst Hdis.
  assert (Hup : round_up (size_in_bytes / 8) 8 = size_in_bytes / 8 + 4)
    by (unfold round_up; lia).
  destruct (CalculateAdlerChecksum_accepts srcmem64 size_in_bytes out1 s ws)
    as (lg1 & Hrun1 & _); try done; try lia.
  { by apply holds_app in Hws as [Hws _]. }
  rewrite <- Hup in Hdst, Hdis.
  assert (Hlen2 : Z.of_nat (length (ws ++ [e0; e1; e2; e3]))
                  = round_up (size_in_bytes / 8) 8)
    by (rewrite length_app, Hup; cbn [length]; lia).
  rewrite (AdlerMemcpyC_run dstmem64 srcmem64 size_in_bytes out2 s
             (ws ++ [e0; e1; e2; e3]) ltac:(lia) Hle Hlen2 Hws Hdst Hdis).
  eexists _, _, _. split; [exact Hrun1 |]. split.
  - rewrite (adler_words_app (Z.to_nat (size_in_bytes / 8 / 4))) by lia.
    done.
  - cbn [mem]. rewrite <- Hlen.
    pose proof (holds_write_list (mem s) dstmem64 (ws ++ [e0; e1; e2; e3]))
      as Hall.
    by apply holds_app in Hall as [_ Hall].
Qed.

Lemma copier_takes_the_trailing_group_witness :
  ∃ c s1 s2,
    CalculateAdlerChecksum 0 32 AdlerChecksum_init sample_state
    = Val ((true, c), s1)
    ∧ AdlerMemcpyC 100 0 32 AdlerChecksum_init sample_state
      = Val ((true, increment c 6 7 8 9), s2)
    ∧ holds (mem s2) (100 + 32 / 8) [6; 7; 8; 9].
Proof.
  apply (copier_takes_the_trailing_group 100 0 32 _ _ _ [2; 3; 4; 5]).
  - lia.
  - reflexivity.
  - vm_compute. discriminate.
  - reflexivity.
  - apply (holds_write_list _ 0 [2; 3; 4; 5; 6; 7; 8; 9]).
  - exact sample_state_dst.
  - left. vm_compute. discriminate.
Defined.

(** ** The size check, the loop bound, comparison and formatting *)

(** X11. The size check in bytes: with [size_in_bytes] up to 4194311
    neither function returns [false]; from 4194312 on both return
    [false] at once, with the checksum object and the state as they were. *)
Theorem size_check_in_bytes dstmem64 srcmem64 size_in_bytes checksum s :
  0 ≤ size_in_bytes →
  (size_in_bytes ≤ 4194311 →
   ∀ c s',
     CalculateAdlerChecksum srcmem64 size_in_bytes checksum s
     ≠ Val ((false, c), s')
     ∧ AdlerMemcpyC dstmem64 srcmem64 size_in_bytes checksum s
       ≠ Val ((false, c), s'))
  ∧ (4194312 ≤ size_in_bytes →
     CalculateAdlerChecksum srcmem64 size_in_bytes checksum s
     = Val ((false, checksum), s)
     ∧ AdlerMemcpyC dstmem64 srcmem64 size_in_bytes checksum s
       = Val ((false, checksum), s)).
Proof.
  intros Hsize. split.
  - intros Hsmall c s'.
    unfold CalculateAdlerChecksum, AdlerMemcpyC.
    rewrite size_check_spec, bool_decide_eq_false_2 by lia.
    unfold bind, ret. split.
    + by destruct (CalculateAdlerChecksum_loop _ _ _ _ _ s) as [[r s1] | |].
    + by destruct (AdlerMemcpyC_loop _ _ _ _ _ _ s) as [[r s1] | |].
  - intros Hbig. split.
    + apply CalculateAdlerChecksum_too_large. lia.
    + apply AdlerMemcpyC_too_large. lia.
Qed.

Lemma size_check_in_bytes_witness :
  (∀ c s',
     CalculateAdlerChecksum 0 64 AdlerChecksum_init sample_state
     ≠ Val ((false, c), s')
     ∧ AdlerMemcpyC 100 0 64 AdlerChecksum_init sample_state
       ≠ Val ((false, c), s'))
  ∧ (CalculateAdlerChecksum 0 4194312 AdlerChecksum_init sample_state
     = Val ((false, AdlerChecksum_init), sample_state)
     ∧ AdlerMemcpyC 100 0 4194312 AdlerChecksum_init sample_state
       = Val ((false, AdlerChecksum_init), sample_state)).
Proof.
  split.
  - apply (size_check_in_bytes 100 0 64); lia.
  - apply (size_check_in_bytes 100 0 4194312); lia.
Defined.

(** X12. The loops always end: whatever the arguments and the memory,
    neither function uses up the [count + 1] evaluations of the loop
    condition it is given; the size check keeps the 32-bit counter from
    wrapping around, so a call returns or runs into a fault. *)
Theorem loops_end dstmem64 srcmem64 size_in_bytes checksum s :
  CalculateAdlerChecksum srcmem64 size_in_bytes checksum s ≠ OutOfFuel
  ∧ AdlerMemcpyC dstmem64 srcmem64 size_in_bytes checksum s ≠ OutOfFuel
  ∧ AdlerMemcpyWarmC dstmem64 srcmem64 size_in_bytes checksum s ≠ OutOfFuel
  ∧ AdlerMemcpyAsm dstmem64 srcmem64 size_in_bytes checksum s ≠ OutOfFuel.
Proof.
  split; [apply terminates_CalculateAdlerChecksum |].
  repeat split; apply terminates_AdlerMemcpyC.
Qed.

(** X13. [operator==] holds exactly when the four lanes are pairwise equal,
    and [operator!=] is its negation. *)
Theorem comparison_operators (c d : AdlerChecksum) :
  (AdlerChecksum_eqb c d = true
   ↔ a0 c = a0 d ∧ a1 c = a1 d ∧ b0 c = b0 d ∧ b1 c = b1 d)
  ∧ AdlerChecksum_neqb c d = negb (AdlerChecksum_eqb c d).
Proof.
  destruct c as [[x0 x1] [y0 y1]], d as [[u0 u1] [v0 v1]].
  unfold AdlerChecksum_eqb, AdlerChecksum_neqb, a0, a1, b0, b1. cbn [a b fst snd].
  split.
  - rewrite andb_true_iff, !bool_decide_eq_true. split.
    + by intros [[= -> ->] [= -> ->]].
    + by intros (-> & -> & -> & ->).
  - by rewrite negb_andb.
Qed.

(** X14. The buffer of [ToHexString] is too small for its format: for any
    eight 64-bit values the eight fields take 135 characters, the 128 byte
    buffer keeps the first 127, and what is lost is the low eight digits of
    the last field. *)
Theorem ToHexString_buffer_too_small x0 x1 x2 x3 y0 y1 y2 y3 :
  String.length (fmt_fields [x0; x1; x2; x3; y0; y1; y2; y3]) = 135%nat
  ∧ String.length (snprintf 128 [x0; x1; x2; x3; y0; y1; y2; y3]) = 127%nat
  ∧ fmt_fields [x0; x1; x2; x3; y0; y1; y2; y3]
    = (snprintf 128 [x0; x1; x2; x3; y0; y1; y2; y3]
       +:+ substring 8 8 (fmt_016llx y3))%string.
Proof. repeat split. Qed.
